(** * Block emerge / block send queues of the server (server.h)

    A shallow embedding of the queue classes declared in [server.h]
    ([BlockEmergeQueue], [BlockSendQueue]) and of the constructor of
    [RemoteClient], with the properties that the design document states
    about them.

    Conventions of the embedding:
    - a C++ [float] is an IEEE 754 binary32 value, a [double] a binary64
      value; both are [spec_float]s of the standard library, compared with
      [SFltb] (so every comparison with a NaN is false, as in C++);
    - [core::list<T*>] is a [list] of records: every node owns its entry,
      no entry is shared, so the pointers carry no information;
    - [core::map<K, bool>] is a [gmap];
    - member functions take the object state and return the new state;
    - [JMutexAutoLock] is not modelled: the embedding is sequential. *)

From Stdlib Require Import ZArith Lia.
From Stdlib Require Import Floats.SpecFloat.
From stdpp Require Import base decidable countable list gmap sorting strings.

Local Open Scope Z_scope.

(** ** Floating point numbers *)

Module Float.

(** [float]: binary32, [double]: binary64. *)
Definition prec32 : Z := 24.
Definition emax32 : Z := 128.
Definition prec64 : Z := 53.
Definition emax64 : Z := 1024.

(** Conversion of a value to the format ([prec], [emax]), rounding to
    nearest even; exact when the value is representable (float to
    double always is). *)
Definition convert (prec emax : Z) (x : spec_float) : spec_float :=
  match x with
  | S754_finite s m e =>
      binary_normalize prec emax (cond_Zopp s (Z.pos m)) e s
  | _ => x
  end.

Definition to_double : spec_float -> spec_float := convert prec64 emax64.
Definition to_float : spec_float -> spec_float := convert prec32 emax32.

(** Integer literals. *)
Definition float_of_Z (z : Z) : spec_float :=
  binary_normalize prec32 emax32 z 0 false.
Definition double_of_Z (z : Z) : spec_float :=
  binary_normalize prec64 emax64 z 0 false.

(** [a < b], [a > b] and [a >= b] of C++. *)
Definition lt (a b : spec_float) : bool := SFltb a b.
Definition gt (a b : spec_float) : bool := SFltb b a.
Definition ge (a b : spec_float) : bool := SFleb b a.

End Float.

Abbreviation float := spec_float (only parsing).
Abbreviation double := spec_float (only parsing).

(** ** Positions *)

(** [v3s16]: three signed 16-bit coordinates; [operator==] compares them
    component by component. *)
Record v3s16 : Type := mk_v3s16 { X : Z; Y : Z; Z_ : Z }.

Definition v3s16_eqb (a b : v3s16) : bool :=
  (X a =? X b) && (Y a =? Y b) && (Z_ a =? Z_ b).

#[global] Instance v3s16_eq_dec : EqDecision v3s16.
Proof. solve_decision. Defined.

#[global] Instance v3s16_countable : Countable v3s16.
Proof.
  refine (inj_countable' (fun p => (X p, Y p, Z_ p))
            (fun t => mk_v3s16 t.1.1 t.1.2 t.2) _).
  intros []; reflexivity.
Defined.

(** ** The two loops of [addBlock] over a [core::list] *)

Section CoreList.

Context {A : Type}.

(** First loop: walk the list up to the first entry with the key of the
    request.  If that entry is [adequate] the function returns at once
    ([None]); otherwise the entry is erased and the loop is left
    ([break]).  Without such an entry the list is unchanged. *)
Fixpoint erase_queued (queued adequate : A -> bool) (q : list A)
  : option (list A) :=
  match q with
  | [] => Some []
  | e :: rest =>
      if queued e then
        if adequate e then None else Some rest
      else cons e <$> erase_queued queued adequate rest
  end.

(** Second loop: walk the list up to the first entry that is [lower]
    than the new one and insert the new entry before it
    ([insert_before], [return]).  When the loop runs off the end of the
    list nothing is inserted. *)
Fixpoint insert_before_lower (lower : A -> bool) (newq : A) (q : list A)
  : list A :=
  match q with
  | [] => []
  | e :: rest =>
      if lower e then newq :: e :: rest
      else e :: insert_before_lower lower newq rest
  end.

(** [m_queue.empty()] *)
Definition empty (q : list A) : bool :=
  match q with [] => true | _ => false end.

(** The part of [addBlock] after the first loop. *)
Definition add_to_queue (lower : A -> bool) (newq : A) (q : list A)
  : list A :=
  if empty q then q ++ [newq]
  else insert_before_lower lower newq q.

(** Where the second loop puts the new entry when it does: alone in
    an empty list, or immediately before the first lower entry. *)
Inductive placed (lower : A -> bool) (newq : A) (q : list A)
  : list A -> Prop :=
| placed_alone : q = [] -> placed lower newq q [newq]
| placed_before l1 e l2 :
    q = l1 ++ e :: l2 ->
    Forall (fun e => lower e = false) l1 ->
    lower e = true ->
    placed lower newq q (l1 ++ newq :: e :: l2).

(** A list is [descending] when no entry is followed, anywhere, by one
    that is not less than or equal to it. *)
Definition descending (prio : A -> spec_float) (q : list A) : Prop :=
  StronglySorted (fun a b => Float.ge (prio a) (prio b) = true) q.

End CoreList.

(** ** BlockEmergeQueue *)

Module BlockEmergeQueue.

(** [struct QueuedBlockEmerge] *)
Record QueuedBlockEmerge : Type := mk_QueuedBlockEmerge {
  pos : v3s16;
  priority : float  (* Larger = more important *)
}.

(** The state of the object is [m_queue]; a new object has an empty
    list. *)
Definition create : list QueuedBlockEmerge := [].

(** [void addBlock(v3s16 pos, float priority)] *)
Definition addBlock (m_queue : list QueuedBlockEmerge)
    (a_pos : v3s16) (a_priority : float) : list QueuedBlockEmerge :=
  match erase_queued
          (fun q => v3s16_eqb (pos q) a_pos)
          (fun q => Float.gt (priority q) a_priority)
          m_queue
  with
  | None =>
      (* Already in queue with a higher priority *)
      m_queue
  | Some m_queue' =>
      let newq := {| pos := a_pos; priority := a_priority |} in
      add_to_queue (fun q => Float.lt (priority q) a_priority) newq m_queue'
  end.

(** [QueuedBlockEmerge * pop()]: [None] is the NULL pointer. *)
Definition pop (m_queue : list QueuedBlockEmerge)
  : option QueuedBlockEmerge * list QueuedBlockEmerge :=
  match m_queue with
  | [] => (None, [])
  | q :: rest => (Some q, rest)
  end.

(** [u32 size()]: the element counter of the list is a [u32]. *)
Definition size (m_queue : list QueuedBlockEmerge) : Z :=
  Z.of_nat (length m_queue) mod 2 ^ 32.

(** Calls that change the object, and their effect in sequence on a new
    queue. *)
Inductive call : Type :=
| AddBlock (a_pos : v3s16) (a_priority : float)
| Pop.

Definition exec (m_queue : list QueuedBlockEmerge) (c : call)
  : list QueuedBlockEmerge :=
  match c with
  | AddBlock a_pos a_priority => addBlock m_queue a_pos a_priority
  | Pop => (pop m_queue).2
  end.

Definition run (cs : list call) : list QueuedBlockEmerge :=
  foldl exec create cs.

(** [n] successive calls of [pop], stopping at the first NULL: the
    entries returned, in order, and the queue left. *)
Fixpoint pop_n (n : nat) (m_queue : list QueuedBlockEmerge)
  : list QueuedBlockEmerge * list QueuedBlockEmerge :=
  match n with
  | O => ([], m_queue)
  | S n' =>
      match pop m_queue with
      | (None, m_queue') => ([], m_queue')
      | (Some q, m_queue') =>
          let '(qs, m_queue'') := pop_n n' m_queue' in
          (q :: qs, m_queue'')
      end
  end.

(** The class invariant: one entry per position, highest priority
    first ([// Sorted by priority; highest first]). *)
Definition invariant (m_queue : list QueuedBlockEmerge) : Prop :=
  NoDup (pos <$> m_queue) /\ descending priority m_queue.

End BlockEmergeQueue.

(** ** BlockSendQueue *)

Module BlockSendQueue.

(** [struct QueuedBlockSend] *)
Record QueuedBlockSend : Type := mk_QueuedBlockSend {
  peer_id : Z;
  pos : v3s16;
  priority : float;  (* Larger = more important *)
  timeout_timestamp : double
}.

(** The members of the class. *)
Record t : Type := mk {
  m_queue : list QueuedBlockSend;
  m_timestamp : double
}.

(** The constructor has an empty body: the list is empty and
    [m_timestamp] keeps whatever value [t0] the memory holds. *)
Definition create (t0 : double) : t :=
  {| m_queue := []; m_timestamp := t0 |}.

(** The local [float timeout_timestamp = m_timestamp + timeout]: the sum
    is computed in [double] and rounded to [float]. *)
Definition deadline (m_timestamp : double) (timeout : float) : float :=
  Float.to_float
    (SFadd Float.prec64 Float.emax64 m_timestamp (Float.to_double timeout)).

(** [void addBlock(int peer_id, v3s16 pos, float priority, float timeout)] *)
Definition addBlock (s : t) (a_peer_id : Z) (a_pos : v3s16)
    (a_priority : float) (timeout : float) : t :=
  let a_timeout_timestamp : float := deadline (m_timestamp s) timeout in
  match erase_queued
          (fun q => (peer_id q =? a_peer_id) && v3s16_eqb (pos q) a_pos)
          (fun q => Float.gt (priority q) a_priority
                    && Float.gt (timeout_timestamp q)
                                (Float.to_double a_timeout_timestamp))
          (m_queue s)
  with
  | None =>
      (* Already in queue with a higher priority and higher timeout *)
      s
  | Some m_queue' =>
      let newq :=
        {| peer_id := a_peer_id;
           pos := a_pos;
           priority := a_priority;
           timeout_timestamp := Float.to_double a_timeout_timestamp |} in
      {| m_queue :=
           add_to_queue (fun q => Float.lt (priority q) a_priority)
             newq m_queue';
         m_timestamp := m_timestamp s |}
  end.

(** [void step(double dtime)] *)
Definition step (s : t) (dtime : double) : t :=
  {| m_queue := m_queue s;
     m_timestamp := SFadd Float.prec64 Float.emax64 (m_timestamp s) dtime |}.

(** [u32 size()] *)
Definition size (s : t) : Z :=
  Z.of_nat (length (m_queue s)) mod 2 ^ 32.

(** Modelled from the spec: the body of [BlockSendQueue::send], which
    [server.h] only declares.  The drain step takes the entries from the
    head of the queue (highest priority first).  An entry whose deadline
    has elapsed when it is reached is dropped without being sent; any
    other entry is transmitted as long as the send budget lasts.  The
    result is the list of the entries handed to the transport, in order,
    and the entries left in the queue. *)
Fixpoint drain (now : double) (budget : nat) (q : list QueuedBlockSend)
  : list QueuedBlockSend * list QueuedBlockSend :=
  match q with
  | [] => ([], [])
  | e :: rest =>
      if Float.lt (timeout_timestamp e) now then
        drain now budget rest
      else
        match budget with
        | O => ([], e :: rest)
        | S budget' =>
            let '(sent, kept) := drain now budget' rest in
            (e :: sent, kept)
        end
  end.

(** Modelled from the spec: [send], as the drain step on the object;
    [budget] is the number of blocks that the outgoing packet queue
    still accepts. *)
Definition send (s : t) (budget : nat) : list QueuedBlockSend * t :=
  let '(sent, kept) := drain (m_timestamp s) budget (m_queue s) in
  (sent, {| m_queue := kept; m_timestamp := m_timestamp s |}).

Inductive call : Type :=
| AddBlock (a_peer_id : Z) (a_pos : v3s16) (a_priority timeout : float)
| Step (dtime : double).

Definition exec (s : t) (c : call) : t :=
  match c with
  | AddBlock a_peer_id a_pos a_priority timeout =>
      addBlock s a_peer_id a_pos a_priority timeout
  | Step dtime => step s dtime
  end.

Definition run (t0 : double) (cs : list call) : t :=
  foldl exec (create t0) cs.

(** The key of an entry. *)
Definition key (q : QueuedBlockSend) : Z * v3s16 := (peer_id q, pos q).

(** The class invariant: one entry per key, highest priority first
    ([// Sorted by priority; highest first]). *)
Definition invariant (s : t) : Prop :=
  NoDup (key <$> m_queue s) /\ descending priority (m_queue s).

End BlockSendQueue.

(** ** RemoteClient *)

Module RemoteClient.

Record t : Type := mk {
  peer_id : Z;                          (* u16 *)
  serialization_version : Z;            (* u8 *)
  net_proto_version : Z;                (* u16 *)
  pending_serialization_version : Z;    (* u8 *)
  definitions_sent : bool;
  m_time_from_building : float;
  m_known_objects : gmap Z bool;
  m_blocks_sent : gmap v3s16 bool;
  m_nearest_unsent_d : Z;               (* s16 *)
  m_last_center : v3s16;
  m_nearest_unsent_reset_timer : float;
  m_nothing_to_send_counter : Z;        (* u32 *)
  m_nothing_to_send_pause_timer : float
}.

(** [RemoteClient()].  [SER_FMT_VER_INVALID] comes from
    [serialization.h] and is a parameter here.  The two maps and
    [m_last_center] are default constructed: empty maps and the zero
    vector. *)
Definition create (SER_FMT_VER_INVALID : Z) : t :=
  {| peer_id := 0;
     serialization_version := SER_FMT_VER_INVALID;
     net_proto_version := 0;
     pending_serialization_version := SER_FMT_VER_INVALID;
     definitions_sent := false;
     m_time_from_building := Float.float_of_Z 9999;
     m_known_objects := ∅;
     m_blocks_sent := ∅;
     m_nearest_unsent_d := 0;
     m_last_center := mk_v3s16 0 0 0;
     m_nearest_unsent_reset_timer := Float.float_of_Z 0;
     m_nothing_to_send_counter := 0;
     m_nothing_to_send_pause_timer := Float.float_of_Z 0 |}.

End RemoteClient.

(** ** Values of the scenarios *)

Module Scenario.

Definition F : Z -> float := Float.float_of_Z.
Definition D : Z -> double := Float.double_of_Z.

Definition P : v3s16 := mk_v3s16 0 0 0.
Definition A : v3s16 := mk_v3s16 1 0 0.
Definition B : v3s16 := mk_v3s16 2 0 0.

Definition emerge (a_pos : v3s16) (a_priority : Z)
  : BlockEmergeQueue.QueuedBlockEmerge :=
  {| BlockEmergeQueue.pos := a_pos;
     BlockEmergeQueue.priority := F a_priority |}.

Definition send_entry (a_peer_id : Z) (a_pos : v3s16)
    (a_priority a_deadline : Z) : BlockSendQueue.QueuedBlockSend :=
  {| BlockSendQueue.peer_id := a_peer_id;
     BlockSendQueue.pos := a_pos;
     BlockSendQueue.priority := F a_priority;
     BlockSendQueue.timeout_timestamp := D a_deadline |}.

(** A send queue at time [now] holding the entries [q]. *)
Definition send_queue (now : Z) (q : list BlockSendQueue.QueuedBlockSend)
  : BlockSendQueue.t :=
  {| BlockSendQueue.m_queue := q; BlockSendQueue.m_timestamp := D now |}.

End Scenario.

(** ** The common shape of the two [addBlock]s *)

Section AddBlock.

Context {A : Type}.

(** Both [addBlock]s run the first loop and, unless it returns, hand the
    list it leaves to [add_to_queue]. *)
Definition erase_and_add (queued adequate lower : A -> bool) (newq : A)
    (q : list A) : list A :=
  match erase_queued queued adequate q with
  | None => q
  | Some q' => add_to_queue lower newq q'
  end.

End AddBlock.

(** ** PrioritySortedBlockTransfer *)

Module PrioritySortedBlockTransfer.

(** Lower priority number means higher priority. *)
Record t : Type := mk {
  priority : float;
  pos : v3s16;
  peer_id : Z  (* u16 *)
}.

(** [PrioritySortedBlockTransfer(float a_priority, v3s16 a_pos,
    u16 a_peer_id)] *)
Definition create (a_priority : float) (a_pos : v3s16) (a_peer_id : Z) : t :=
  {| priority := a_priority; pos := a_pos; peer_id := a_peer_id |}.

(** [bool operator < (PrioritySortedBlockTransfer &other)] *)
Definition lt (this other : t) : bool :=
  Float.lt (priority this) (priority other).

End PrioritySortedBlockTransfer.

(** ** ServerError *)

Module ServerError.

(** The exception object: the member [m_s]. *)
Record t : Type := mk { m_s : string }.

(** [ServerError(const std::string &s)] *)
Definition create (s : string) : t :=
  {| m_s := "ServerError: " +:+ s |}.

(** [std::string::c_str()] read as a C string: the characters before the
    first NUL. *)
Fixpoint c_str (s : string) : string :=
  match s with
  | EmptyString => EmptyString
  | String c rest =>
      if Ascii.eqb c Ascii.zero then EmptyString else String c (c_str rest)
  end.

(** [const char * what()] *)
Definition what (e : t) : string := c_str (m_s e).

End ServerError.

(** * Properties *)

(** *** Order lemmas on [SFcompare] *)

Section FloatOrder.

Lemma compare_cont_Eq (m1 m2 : positive) :
  Pos.compare_cont Eq m1 m2 = (m1 ?= m2)%positive.
Proof. reflexivity. Qed.

Ltac cmp_cases :=
  repeat match goal with
    | |- context [(?a ?= ?b)%Z] =>
        destruct (Z.compare_spec a b); subst
    | H : context [(?a ?= ?b)%Z] |- _ =>
        destruct (Z.compare_spec a b); subst
    | |- context [(?a ?= ?b)%positive] =>
        destruct (Pos.compare_spec a b); subst
    | H : context [(?a ?= ?b)%positive] |- _ =>
        destruct (Pos.compare_spec a b); subst
    end.

Ltac sf_crush :=
  unfold Float.ge, Float.gt, Float.lt, SFleb, SFltb, SFcompare in *;
  repeat match goal with
    | x : spec_float |- _ => destruct x as [[]|[]| |[] ? ?]
    end;
  simpl in *; try congruence;
  rewrite ?compare_cont_Eq in *;
  cmp_cases; simpl in *; try congruence; try lia.

Lemma SFltb_leb (a b : spec_float) : SFltb a b = true -> SFleb a b = true.
Proof. unfold SFltb, SFleb. destruct (SFcompare a b) as [[]|]; congruence. Qed.

Lemma SFleb_ltb_trans (a b c : spec_float) :
  SFleb a b = true -> SFltb b c = true -> SFleb a c = true.
Proof. intros H1 H2. sf_crush. Qed.

Lemma SFleb_trans (a b c : spec_float) :
  SFleb a b = true -> SFleb b c = true -> SFleb a c = true.
Proof. intros H1 H2. sf_crush. Qed.

(** On numbers (no NaN) the order is total: [a] and [b] are numbers as
    soon as each takes part in a comparison that holds. *)
Lemma SFltb_false_leb (a b x y : spec_float) :
  SFltb a b = false -> SFleb x a = true -> SFltb y b = true ->
  SFleb b a = true.
Proof. intros H1 H2 H3. sf_crush. Qed.

Lemma SFltb_irrefl (a : spec_float) : SFltb a a = false.
Proof. sf_crush. Qed.

Lemma SFltb_asym (a b : spec_float) : SFltb a b = true -> SFltb b a = false.
Proof. intros H. sf_crush. Qed.

Lemma SFeqb_not_ltb (a b : spec_float) :
  SFeqb a b = true -> SFltb b a = false.
Proof. unfold SFeqb. intros H. sf_crush. Qed.

End FloatOrder.


(** ** Positions *)

Lemma v3s16_eqb_eq (a b : v3s16) : v3s16_eqb a b = true <-> a = b.
Proof.
  destruct a, b; unfold v3s16_eqb; simpl.
  rewrite !andb_true_iff, !Z.eqb_eq. split.
  - intros [[-> ->] ->]; reflexivity.
  - intros [= -> -> ->]; auto.
Qed.

(** ** The two loops *)

Section CoreListFacts.

Context {A : Type}.
Implicit Types (q l : list A) (e : A).

Lemma erase_queued_absent queued adequate q :
  Forall (fun e => queued e = false) q ->
  erase_queued queued adequate q = Some q.
Proof.
  induction 1 as [|e q He _ IH]; simpl; [done|].
  by rewrite He, IH.
Qed.

Lemma erase_queued_at queued adequate l1 e l2 :
  Forall (fun e => queued e = false) l1 ->
  queued e = true ->
  erase_queued queued adequate (l1 ++ e :: l2)
  = if adequate e then None else Some (l1 ++ l2).
Proof.
  intros Hl1 He. induction Hl1 as [|x l1 Hx _ IH]; simpl.
  - by rewrite He.
  - rewrite Hx, IH. by destruct (adequate e).
Qed.

(** The list either holds no entry with the key, or splits at the first
    one. *)
Lemma first_queued queued q :
  Forall (fun e => queued e = false) q
  \/ exists l1 e l2,
      q = l1 ++ e :: l2
      /\ Forall (fun e => queued e = false) l1
      /\ queued e = true.
Proof.
  induction q as [|x q IH]; [by left|].
  destruct (queued x) eqn:Hx.
  - right. by exists [], x, q.
  - destruct IH as [IH|(l1 & e & l2 & -> & Hl1 & He)].
    + left. by constructor.
    + right. exists (x :: l1), e, l2. split_and!; [done| |done].
      by constructor.
Qed.

Lemma insert_before_lower_none lower newq q :
  Forall (fun e => lower e = false) q ->
  insert_before_lower lower newq q = q.
Proof.
  induction 1 as [|e q He _ IH]; simpl; [done|].
  by rewrite He, IH.
Qed.

Lemma insert_before_lower_at lower newq l1 e l2 :
  Forall (fun e => lower e = false) l1 ->
  lower e = true ->
  insert_before_lower lower newq (l1 ++ e :: l2) = l1 ++ newq :: e :: l2.
Proof.
  intros Hl1 He. induction Hl1 as [|x l1 Hx _ IH]; simpl.
  - by rewrite He.
  - by rewrite Hx, IH.
Qed.

Lemma add_to_queue_lost lower newq q :
  q <> [] ->
  Forall (fun e => lower e = false) q ->
  add_to_queue lower newq q = q.
Proof.
  intros Hne Hno. unfold add_to_queue. destruct q; [done|]. simpl empty.
  cbv iota. by apply insert_before_lower_none.
Qed.

Lemma add_to_queue_placed lower newq q :
  q = [] \/ Exists (fun e => lower e = true) q ->
  placed lower newq q (add_to_queue lower newq q).
Proof.
  intros Hq. unfold add_to_queue. destruct q as [|x q]; simpl empty; cbv iota.
  { by constructor. }
  destruct Hq as [|Hex]; [done|].
  destruct (first_queued lower (x :: q))
    as [Hno|(l1 & e & l2 & Heq & Hl1 & He)].
  - exfalso. apply Exists_exists in Hex as (y & Hy & Hlow).
    rewrite Forall_forall in Hno. specialize (Hno y Hy). congruence.
  - rewrite Heq, insert_before_lower_at by done. by econstructor.
Qed.

Lemma add_to_queue_cases lower newq q :
  placed lower newq q (add_to_queue lower newq q)
  \/ add_to_queue lower newq q = q.
Proof.
  destruct q as [|x q]; [left; by apply add_to_queue_placed; left|].
  destruct (first_queued lower (x :: q))
    as [Hno|(l1 & e & l2 & Heq & Hl1 & He)].
  - right. by apply add_to_queue_lost.
  - left. apply add_to_queue_placed. right. rewrite Heq.
    apply Exists_app. right. by left.
Qed.

(** *** At most one entry per key *)

Section Keys.

Context {K : Type} (key : A -> K).

Lemma erase_queued_keys queued adequate (k : K) q q' :
  (forall e, queued e = true <-> key e = k) ->
  NoDup (key <$> q) ->
  erase_queued queued adequate q = Some q' ->
  NoDup (key <$> q') /\ k ∉ key <$> q'.
Proof.
  intros Hk Hnd Hq.
  destruct (first_queued queued q)
    as [Hno|(l1 & e & l2 & -> & Hl1 & He)].
  - rewrite erase_queued_absent in Hq by done.
    injection Hq as <-. split; [done|].
    rewrite list_elem_of_fmap. intros (e & -> & Hin).
    rewrite Forall_forall in Hno. specialize (Hno e Hin).
    assert (queued e = true) by by apply Hk. congruence.
  - rewrite erase_queued_at in Hq by done.
    destruct (adequate e); [done|]. injection Hq as <-.
    apply Hk in He. subst k.
    rewrite fmap_app, fmap_cons in Hnd.
    apply NoDup_app in Hnd as (Hnd1 & Hdisj & Hnd2).
    apply NoDup_cons in Hnd2 as [Hnotin Hnd2].
    rewrite fmap_app. split.
    + apply NoDup_app. split_and!; [done| |done].
      intros x Hx Hx2. apply (Hdisj x Hx). by right.
    + rewrite elem_of_app. intros [Hin|Hin]; [|done].
      apply (Hdisj _ Hin). by left.
Qed.

Lemma add_to_queue_keys lower newq q :
  NoDup (key <$> q) ->
  key newq ∉ key <$> q ->
  NoDup (key <$> add_to_queue lower newq q).
Proof.
  intros Hnd Hnew.
  destruct (add_to_queue_cases lower newq q)
    as [[->|l1 e l2 -> _ _]| ->]; [| |done].
  - apply NoDup_singleton.
  - rewrite fmap_app, fmap_cons in *.
    apply NoDup_app in Hnd as (Hnd1 & Hdisj & Hnd2).
    rewrite elem_of_app in Hnew.
    apply NoDup_app. split_and!; [done| |].
    + intros x Hx [->|Hx2]%elem_of_cons; [|by eapply Hdisj].
      apply Hnew. by left.
    + apply NoDup_cons. split; [|done].
      intros Hin. apply Hnew. by right.
Qed.

End Keys.

(** *** Highest priority first *)

Section Order.

Context (prio : A -> spec_float).

Lemma erase_queued_descending queued adequate q q' :
  descending prio q ->
  erase_queued queued adequate q = Some q' ->
  descending prio q'.
Proof.
  unfold descending. intros Hs Hq.
  destruct (first_queued queued q)
    as [Hno|(l1 & e & l2 & -> & Hl1 & He)].
  - rewrite erase_queued_absent in Hq by done. by injection Hq as <-.
  - rewrite erase_queued_at in Hq by done.
    destruct (adequate e); [done|]. injection Hq as <-.
    apply StronglySorted_app in Hs as (H12 & Hs1 & Hs2).
    apply StronglySorted_cons in Hs2 as [_ Hs2].
    apply StronglySorted_app. split_and!; [|done..].
    intros x1 x2 Hx1 Hx2. apply H12; [done|by right].
Qed.

Lemma placed_descending lower newq q q' :
  (forall e, lower e = Float.lt (prio e) (prio newq)) ->
  descending prio q ->
  placed lower newq q q' ->
  descending prio q'.
Proof.
  unfold descending, Float.ge, Float.lt. intros Hlow Hs Hp.
  destruct Hp as [->|l1 e l2 -> Hl1 He].
  { repeat constructor. }
  rewrite Hlow in He.
  apply StronglySorted_app in Hs as (H12 & Hs1 & Hs2).
  pose proof Hs2 as [Hel2 _]%StronglySorted_cons.
  rewrite Forall_forall in Hel2, Hl1.
  apply StronglySorted_app. split_and!; [|done|].
  - intros x1 x2 Hx1 [->|Hx2]%elem_of_cons; [|by apply H12].
    eapply SFltb_false_leb; [|apply (H12 x1 e Hx1); by left|exact He].
    rewrite <- Hlow. by apply Hl1.
  - apply StronglySorted_cons. split; [|done].
    apply Forall_forall. intros x [->|Hx]%elem_of_cons.
    + by apply SFltb_leb.
    + eapply SFleb_ltb_trans; [by apply Hel2|done].
Qed.

Lemma add_to_queue_descending lower newq q :
  (forall e, lower e = Float.lt (prio e) (prio newq)) ->
  descending prio q ->
  descending prio (add_to_queue lower newq q).
Proof.
  intros Hlow Hs.
  destruct (add_to_queue_cases lower newq q) as [Hp| ->]; [|done].
  by eapply placed_descending.
Qed.

End Order.

End CoreListFacts.

(** ** BlockEmergeQueue *)

Module BlockEmergeQueueFacts.

Import BlockEmergeQueue.

Implicit Types (q l : list QueuedBlockEmerge) (e : QueuedBlockEmerge).

Lemma emerge_queued_iff a_pos e :
  v3s16_eqb (pos e) a_pos = true <-> pos e = a_pos.
Proof. apply v3s16_eqb_eq. Qed.

Lemma emerge_addBlock_invariant q a_pos a_priority :
  invariant q -> invariant (addBlock q a_pos a_priority).
Proof.
  intros [Hnd Hs]. unfold addBlock.
  destruct (erase_queued _ _ q) as [q'|] eqn:Hq; [|done].
  destruct (erase_queued_keys pos _ _ a_pos q q'
              (emerge_queued_iff a_pos) Hnd Hq)
    as [Hnd' Hnotin].
  split.
  - by apply add_to_queue_keys.
  - apply add_to_queue_descending; [done|].
    by eapply erase_queued_descending.
Qed.

Lemma emerge_pop_invariant q : invariant q -> invariant (pop q).2.
Proof.
  intros [Hnd Hs]. destruct q as [|e q]; simpl; [done|].
  rewrite fmap_cons in Hnd. apply NoDup_cons in Hnd as [_ Hnd].
  apply StronglySorted_cons in Hs as [_ Hs]. done.
Qed.

Lemma emerge_exec_invariant q c : invariant q -> invariant (exec q c).
Proof.
  destruct c; simpl;
    [apply emerge_addBlock_invariant|apply emerge_pop_invariant].
Qed.

Lemma emerge_foldl_exec_invariant cs q :
  invariant q -> invariant (foldl exec q cs).
Proof.
  revert q. induction cs as [|c cs IH]; intros q Hq; simpl; [done|].
  by apply IH, emerge_exec_invariant.
Qed.

Lemma emerge_run_invariant cs : invariant (run cs).
Proof.
  apply emerge_foldl_exec_invariant. split; [apply NoDup_nil_2|constructor].
Qed.

Lemma pop_n_take_drop n q : pop_n n q = (take n q, drop n q).
Proof.
  revert q. induction n as [|n IH]; intros [|e q]; simpl; try done.
  by rewrite IH.
Qed.

Lemma size_length q :
  Z.of_nat (length q) < 2 ^ 32 -> size q = Z.of_nat (length q).
Proof. intros Hlt. unfold size. apply Z.mod_small. lia. Qed.

Lemma emerge_not_queued_before a_pos l :
  a_pos ∉ pos <$> l ->
  Forall (fun e => v3s16_eqb (pos e) a_pos = false) l.
Proof.
  intros Hnotin. apply Forall_forall. intros e He.
  destruct (v3s16_eqb (pos e) a_pos) eqn:Heq; [|done].
  exfalso. apply Hnotin. apply emerge_queued_iff in Heq as <-.
  by apply list_elem_of_fmap_2.
Qed.

(** A request for a position queued with a higher priority returns at
    once. *)
Lemma addBlock_queued_higher l1 e l2 a_priority :
  pos e ∉ pos <$> l1 ->
  Float.gt (priority e) a_priority = true ->
  addBlock (l1 ++ e :: l2) (pos e) a_priority = l1 ++ e :: l2.
Proof.
  intros Hl1 Hgt. unfold addBlock.
  rewrite erase_queued_at; [by rewrite Hgt|by apply emerge_not_queued_before|].
  by apply emerge_queued_iff.
Qed.

(** Otherwise the entry is erased and the request goes through the
    second loop. *)
Lemma addBlock_queued_not_higher l1 e l2 a_priority :
  pos e ∉ pos <$> l1 ->
  Float.gt (priority e) a_priority = false ->
  addBlock (l1 ++ e :: l2) (pos e) a_priority
  = add_to_queue (fun x => Float.lt (priority x) a_priority)
      {| pos := pos e; priority := a_priority |} (l1 ++ l2).
Proof.
  intros Hl1 Hgt. unfold addBlock.
  rewrite erase_queued_at; [by rewrite Hgt|by apply emerge_not_queued_before|].
  by apply emerge_queued_iff.
Qed.

Lemma addBlock_not_queued q a_pos a_priority :
  a_pos ∉ pos <$> q ->
  addBlock q a_pos a_priority
  = add_to_queue (fun x => Float.lt (priority x) a_priority)
      {| pos := a_pos; priority := a_priority |} q.
Proof.
  intros Hq. unfold addBlock.
  by rewrite erase_queued_absent by by apply emerge_not_queued_before.
Qed.

(** The request is lost whenever the second loop finds no entry of
    lower priority in a queue that is not empty. *)
Lemma addBlock_not_queued_lost q a_pos a_priority :
  a_pos ∉ pos <$> q ->
  q <> [] ->
  Forall (fun e => Float.lt (priority e) a_priority = false) q ->
  addBlock q a_pos a_priority = q.
Proof.
  intros Hq Hne Hno. rewrite addBlock_not_queued by done.
  by apply add_to_queue_lost.
Qed.

(** C3: when addBlock(P, p1) on a new queue is followed by
    addBlock(P, p2) with p2 lower than p1, the second call changes
    nothing: the size stays 1 and pop returns the entry for P with
    priority p1.  The second call is a no-op as well in any queue in
    which P is queued with priority p1. *)
Theorem addBlock_lower_priority_noop a_pos p1 p2 :
  Float.lt p2 p1 = true ->
  (let q1 := addBlock create a_pos p1 in
   let q2 := addBlock q1 a_pos p2 in
   q2 = q1 /\ size q1 = 1 /\ size q2 = 1
   /\ pop q2 = (Some {| pos := a_pos; priority := p1 |}, []))
  /\ (forall l1 l2,
        a_pos ∉ pos <$> l1 ->
        let q := l1 ++ {| pos := a_pos; priority := p1 |} :: l2 in
        addBlock q a_pos p2 = q).
Proof.
  intros Hlt.
  assert (Hgen : forall l1 l2,
    a_pos ∉ pos <$> l1 ->
    addBlock (l1 ++ {| pos := a_pos; priority := p1 |} :: l2) a_pos p2
    = l1 ++ {| pos := a_pos; priority := p1 |} :: l2).
  { intros l1 l2 Hl1.
    by apply (addBlock_queued_higher l1
                {| pos := a_pos; priority := p1 |} l2 p2). }
  split; [|exact Hgen].
  assert (Hq1 : addBlock create a_pos p1
                = [{| pos := a_pos; priority := p1 |}]) by done.
  pose proof (Hgen [] [] (not_elem_of_nil _)) as Hq2.
  cbv zeta. rewrite Hq1. simpl app in Hq2. rewrite Hq2. done.
Qed.

Lemma addBlock_lower_priority_noop_witness :
  Float.lt (Scenario.F 2) (Scenario.F 5) = true
  /\ addBlock (addBlock create Scenario.P (Scenario.F 5))
       Scenario.P (Scenario.F 2)
     = addBlock create Scenario.P (Scenario.F 5)
  /\ size (addBlock (addBlock create Scenario.P (Scenario.F 5))
             Scenario.P (Scenario.F 2)) = 1
  /\ pop (addBlock (addBlock create Scenario.P (Scenario.F 5))
            Scenario.P (Scenario.F 2))
     = (Some (Scenario.emerge Scenario.P 5), []).
Proof.
  destruct (addBlock_lower_priority_noop
              Scenario.P (Scenario.F 5) (Scenario.F 2))
    as [(H1 & _ & H2 & H3) _]; [reflexivity|].
  split_and!; [reflexivity|exact H1|exact H2|exact H3].
Defined.

(** C4: after any sequence of calls, successive pops return entries
    whose priorities never increase: each returned priority is greater
    than or equal to every priority returned after it.  Popping as many
    times as the queue has entries returns all of them. *)
Theorem pop_priorities_descending cs n :
  StronglySorted (fun p1 p2 => Float.ge p1 p2 = true)
    (priority <$> (pop_n n (run cs)).1)
  /\ pop_n (length (run cs)) (run cs) = (run cs, []).
Proof.
  rewrite !pop_n_take_drop. simpl. split.
  - destruct (emerge_run_invariant cs) as [_ Hs]. unfold descending in Hs.
    rewrite <- (take_drop n (run cs)) in Hs.
    apply StronglySorted_app_1_l in Hs.
    eapply StronglySorted_fmap; [|exact Hs]. done.
  - by rewrite firstn_all, drop_all.
Qed.

(** C7: pop is a total function of the queue.  On the empty queue it
    returns NULL and leaves the queue empty.  On any other queue that a
    sequence of calls can produce it removes the first entry and returns
    it, the number of entries (and [size()], a u32) goes down by one,
    and the priority returned is greater than or equal to that of every
    entry left. *)
Theorem pop_returns_highest_or_null cs :
  pop create = (None, create)
  /\ match pop (run cs) with
     | (None, q') => run cs = [] /\ q' = []
     | (Some e, q') =>
         run cs = e :: q'
         /\ length (run cs) = S (length q')
         /\ size (run cs) = (size q' + 1) mod 2 ^ 32
         /\ Forall (fun x => Float.ge (priority e) (priority x) = true) q'
     end.
Proof.
  split; [done|].
  destruct (emerge_run_invariant cs) as [_ Hs].
  destruct (run cs) as [|e q']; simpl; [done|].
  split_and!; [done|done| |].
  - unfold size. rewrite Zplus_mod_idemp_l. f_equal. simpl length. lia.
  - by apply StronglySorted_cons in Hs as [Hs _].
Qed.

(** C2: a request for a position that is not queued is not always
    added.  With (1,0,0) queued at priority 5, addBlock((0,0,0), 3)
    leaves the queue as it was: the size stays 1 and (0,0,0) is not
    queued.  A duplicate of higher urgency can be lost in the same way:
    with (1,0,0) at priority 6 before (0,0,0) at priority 1,
    addBlock((0,0,0), 5) erases the entry of (0,0,0) and inserts
    nothing. *)
Theorem addBlock_request_lost :
  (run [AddBlock Scenario.A (Scenario.F 5)] = [Scenario.emerge Scenario.A 5]
   /\ (Scenario.P ∉ pos <$> [Scenario.emerge Scenario.A 5])
   /\ addBlock [Scenario.emerge Scenario.A 5] Scenario.P (Scenario.F 3)
      = [Scenario.emerge Scenario.A 5]
   /\ size [Scenario.emerge Scenario.A 5] = 1
   /\ size (addBlock [Scenario.emerge Scenario.A 5]
              Scenario.P (Scenario.F 3)) = 1)
  /\ (run [AddBlock Scenario.P (Scenario.F 1);
           AddBlock Scenario.A (Scenario.F 6)]
      = [Scenario.emerge Scenario.A 6; Scenario.emerge Scenario.P 1]
      /\ addBlock [Scenario.emerge Scenario.A 6; Scenario.emerge Scenario.P 1]
           Scenario.P (Scenario.F 5)
         = [Scenario.emerge Scenario.A 6]).
Proof.
  split_and!; try by vm_compute.
  apply not_elem_of_cons. split; [done|apply not_elem_of_nil].
Qed.

(** C5, as stated, fails: with (0,0,0) and (1,0,0) queued at priority 5
    in this order, before (2,0,0) at priority 1, addBlock((0,0,0), 5)
    is not a no-op: the entry of (0,0,0) moves behind that of (1,0,0),
    and the next pop returns (1,0,0) instead of (0,0,0). *)
Lemma addBlock_equal_priority_not_noop :
  run [AddBlock Scenario.B (Scenario.F 1);
       AddBlock Scenario.P (Scenario.F 5);
       AddBlock Scenario.A (Scenario.F 5)]
  = [Scenario.emerge Scenario.P 5; Scenario.emerge Scenario.A 5;
     Scenario.emerge Scenario.B 1]
  /\ addBlock [Scenario.emerge Scenario.P 5; Scenario.emerge Scenario.A 5;
               Scenario.emerge Scenario.B 1] Scenario.P (Scenario.F 5)
     = [Scenario.emerge Scenario.A 5; Scenario.emerge Scenario.P 5;
        Scenario.emerge Scenario.B 1]
  /\ addBlock [Scenario.emerge Scenario.P 5; Scenario.emerge Scenario.A 5;
               Scenario.emerge Scenario.B 1] Scenario.P (Scenario.F 5)
     <> [Scenario.emerge Scenario.P 5; Scenario.emerge Scenario.A 5;
         Scenario.emerge Scenario.B 1]
  /\ (pop [Scenario.emerge Scenario.P 5; Scenario.emerge Scenario.A 5;
           Scenario.emerge Scenario.B 1]).1
     = Some (Scenario.emerge Scenario.P 5)
  /\ (pop (addBlock [Scenario.emerge Scenario.P 5;
                     Scenario.emerge Scenario.A 5;
                     Scenario.emerge Scenario.B 1]
             Scenario.P (Scenario.F 5))).1
     = Some (Scenario.emerge Scenario.A 5).
Proof. split_and!; by vm_compute. Qed.

(** C5, amended: when addBlock is called for a position already queued
    with exactly equal priority, the call does not return early: the
    existing entry is erased, whatever else is queued.  An entry with the
    position and the incoming priority is then inserted alone when no
    other entry is queued, and immediately before the first of the other
    entries that has a strictly lower priority when there is one (so
    behind every other entry of equal priority).  When other entries are
    queued and none of them has a strictly lower priority, the queue is
    left holding exactly the other entries, in their order. *)
Theorem addBlock_equal_priority_reinserted l1 e l2 a_priority :
  pos e ∉ pos <$> l1 ->
  SFeqb (priority e) a_priority = true ->
  (l1 ++ l2 = []
   \/ Exists (fun x => Float.lt (priority x) a_priority = true) (l1 ++ l2) ->
   placed (fun x => Float.lt (priority x) a_priority)
     {| pos := pos e; priority := a_priority |}
     (l1 ++ l2)
     (addBlock (l1 ++ e :: l2) (pos e) a_priority))
  /\ (l1 ++ l2 <> [] ->
      Forall (fun x => Float.lt (priority x) a_priority = false) (l1 ++ l2) ->
      addBlock (l1 ++ e :: l2) (pos e) a_priority = l1 ++ l2).
Proof.
  intros Hl1 Heq.
  rewrite addBlock_queued_not_higher; [|done|by apply SFeqb_not_ltb].
  split.
  - apply add_to_queue_placed.
  - intros Hne Hno. by apply add_to_queue_lost.
Qed.

Lemma addBlock_equal_priority_reinserted_witness :
  (pos (Scenario.emerge Scenario.P 5) ∉ pos <$> [])
  /\ SFeqb (priority (Scenario.emerge Scenario.P 5)) (Scenario.F 5) = true
  /\ Exists (fun x => Float.lt (priority x) (Scenario.F 5) = true)
       ([] ++ [Scenario.emerge Scenario.A 5; Scenario.emerge Scenario.B 1])
  /\ placed (fun x => Float.lt (priority x) (Scenario.F 5))
       {| pos := pos (Scenario.emerge Scenario.P 5);
          priority := Scenario.F 5 |}
       ([] ++ [Scenario.emerge Scenario.A 5; Scenario.emerge Scenario.B 1])
       (addBlock
          ([] ++ Scenario.emerge Scenario.P 5
                 :: [Scenario.emerge Scenario.A 5;
                     Scenario.emerge Scenario.B 1])
          (pos (Scenario.emerge Scenario.P 5)) (Scenario.F 5))
  /\ addBlock
       ([] ++ Scenario.emerge Scenario.P 5 :: [Scenario.emerge Scenario.A 5])
       (pos (Scenario.emerge Scenario.P 5)) (Scenario.F 5)
     = [] ++ [Scenario.emerge Scenario.A 5].
Proof.
  assert (Hex : Exists
    (fun x => Float.lt (priority x) (Scenario.F 5) = true)
    ([] ++ [Scenario.emerge Scenario.A 5; Scenario.emerge Scenario.B 1])).
  { simpl. apply Exists_cons_tl, Exists_cons_hd. reflexivity. }
  split_and!; [apply not_elem_of_nil|reflexivity|exact Hex| |].
  - apply (addBlock_equal_priority_reinserted []
             (Scenario.emerge Scenario.P 5)
             [Scenario.emerge Scenario.A 5; Scenario.emerge Scenario.B 1]
             (Scenario.F 5) (not_elem_of_nil _) eq_refl).
    right. exact Hex.
  - apply (addBlock_equal_priority_reinserted []
             (Scenario.emerge Scenario.P 5)
             [Scenario.emerge Scenario.A 5]
             (Scenario.F 5) (not_elem_of_nil _) eq_refl).
    + done.
    + by repeat constructor.
Defined.

End BlockEmergeQueueFacts.

(** ** BlockSendQueue *)

Module BlockSendQueueFacts.

Import BlockSendQueue.

Implicit Types (q l : list QueuedBlockSend) (e : QueuedBlockSend) (s : t).

Lemma sendq_queued_iff a_peer_id a_pos e :
  (peer_id e =? a_peer_id) && v3s16_eqb (pos e) a_pos = true
  <-> key e = (a_peer_id, a_pos).
Proof.
  unfold key. rewrite andb_true_iff, Z.eqb_eq, v3s16_eqb_eq.
  split; [intros [-> ->]; done|intros [= -> ->]; done].
Qed.

Lemma sendq_addBlock_invariant s a_peer_id a_pos a_priority timeout :
  invariant s -> invariant (addBlock s a_peer_id a_pos a_priority timeout).
Proof.
  intros [Hnd Hs]. unfold addBlock.
  destruct (erase_queued _ _ (m_queue s)) as [q'|] eqn:Hq; [|done].
  destruct (erase_queued_keys key _ _ (a_peer_id, a_pos) _ q'
              (sendq_queued_iff a_peer_id a_pos) Hnd Hq) as [Hnd' Hnotin].
  split; simpl.
  - by apply add_to_queue_keys.
  - apply add_to_queue_descending; [done|].
    by eapply erase_queued_descending.
Qed.

(** The drain step leaves a tail of the queue. *)
Lemma drain_kept now budget q :
  exists n, (drain now budget q).2 = drop n q.
Proof.
  revert budget. induction q as [|e q IH]; intros budget; simpl.
  { by exists 0%nat. }
  destruct (Float.lt (timeout_timestamp e) now).
  - destruct (IH budget) as [n Hn]. by exists (S n).
  - destruct budget as [|budget]; [by exists 0%nat|].
    destruct (IH budget) as [n Hn].
    destruct (drain now budget q) as [sent kept]. by exists (S n).
Qed.

Lemma drain_sent now budget q :
  Forall (fun e => Float.lt (timeout_timestamp e) now = false)
    (drain now budget q).1
  /\ (drain now budget q).1 `sublist_of` q.
Proof.
  revert budget. induction q as [|e q IH]; intros budget; simpl.
  { split; constructor. }
  destruct (Float.lt (timeout_timestamp e) now) eqn:He.
  - destruct (IH budget) as [Hf Hsub]. split; [done|by constructor].
  - destruct budget as [|budget]; simpl.
    { split; [constructor|apply sublist_nil_l]. }
    destruct (IH budget) as [Hf Hsub].
    destruct (drain now budget q) as [sent kept]; simpl in *.
    split; by constructor.
Qed.

(** With budget for the whole queue, exactly the entries whose deadline
    has not elapsed are sent, and the queue is left empty. *)
Lemma drain_all now budget q :
  (length q <= budget)%nat ->
  drain now budget q
  = (filter (fun e => Float.lt (timeout_timestamp e) now = false) q, []).
Proof.
  revert budget. induction q as [|e q IH]; intros budget Hb; simpl in *.
  { done. }
  destruct (Float.lt (timeout_timestamp e) now) eqn:He.
  - rewrite IH by lia. rewrite filter_cons_False; [done|]. congruence.
  - destruct budget as [|budget]; [lia|].
    rewrite IH by lia. by rewrite filter_cons_True.
Qed.

Lemma sendq_send_invariant s budget :
  invariant s -> invariant (send s budget).2.
Proof.
  intros [Hnd Hs]. unfold send.
  destruct (drain_kept (m_timestamp s) budget (m_queue s)) as [n Hn].
  destruct (drain _ _ _) as [sent kept]; simpl in *. subst kept.
  split; simpl.
  - eapply sublist_NoDup; [exact Hnd|].
    rewrite fmap_drop. apply sublist_drop.
  - unfold descending in *. rewrite <- (take_drop n (m_queue s)) in Hs.
    by apply StronglySorted_app_1_r in Hs.
Qed.

Lemma sendq_exec_invariant s c : invariant s -> invariant (exec s c).
Proof.
  destruct c; simpl; [apply sendq_addBlock_invariant|done].
Qed.

Lemma sendq_foldl_exec_invariant cs s :
  invariant s -> invariant (foldl exec s cs).
Proof.
  revert s. induction cs as [|c cs IH]; intros s Hs; simpl; [done|].
  by apply IH, sendq_exec_invariant.
Qed.

Lemma sendq_run_invariant t0 cs : invariant (run t0 cs).
Proof.
  apply sendq_foldl_exec_invariant. split; [apply NoDup_nil_2|constructor].
Qed.

Lemma sendq_not_queued_before a_peer_id a_pos l :
  (a_peer_id, a_pos) ∉ key <$> l ->
  Forall (fun e => (peer_id e =? a_peer_id) && v3s16_eqb (pos e) a_pos
                   = false) l.
Proof.
  intros Hnotin. apply Forall_forall. intros e He.
  destruct ((peer_id e =? a_peer_id) && v3s16_eqb (pos e) a_pos) eqn:Heq;
    [|done].
  exfalso. apply Hnotin. apply sendq_queued_iff in Heq as <-.
  by apply list_elem_of_fmap_2.
Qed.

(** C6, as stated, fails: an entry for peer 1 at (0,0,0) is queued at
    time 0 with priority 5 and a timeout of 10.  A second request with
    priority 5 and a timeout of 8 finds an entry whose priority and
    deadline are both no worse, and yet replaces it: the deadline of the
    queued entry goes from 10 down to 8. *)
Lemma addBlock_no_worse_entry_replaced :
  addBlock (create (Scenario.D 0)) 1 Scenario.P (Scenario.F 5) (Scenario.F 10)
  = Scenario.send_queue 0 [Scenario.send_entry 1 Scenario.P 5 10]
  /\ Float.ge (priority (Scenario.send_entry 1 Scenario.P 5 10))
       (Scenario.F 5) = true
  /\ Float.ge (timeout_timestamp (Scenario.send_entry 1 Scenario.P 5 10))
       (Float.to_double (deadline (Scenario.D 0) (Scenario.F 8))) = true
  /\ addBlock (Scenario.send_queue 0 [Scenario.send_entry 1 Scenario.P 5 10])
       1 Scenario.P (Scenario.F 5) (Scenario.F 8)
     = Scenario.send_queue 0 [Scenario.send_entry 1 Scenario.P 5 8]
  /\ addBlock (Scenario.send_queue 0 [Scenario.send_entry 1 Scenario.P 5 10])
       1 Scenario.P (Scenario.F 5) (Scenario.F 8)
     <> Scenario.send_queue 0 [Scenario.send_entry 1 Scenario.P 5 10].
Proof. split_and!; by vm_compute. Qed.

(** C6, amended: on the send queue, when the key (peer_id, position) of
    a request is already queued, addBlock returns at once, changing
    nothing, if the priority and the deadline of the queued entry are
    both strictly greater than the incoming ones.  In every other case
    the queued entry is erased, whatever else is queued, and m_timestamp
    is unchanged.  The incoming entry is then inserted alone when no
    other entry is queued, and immediately before the first of the other
    entries that has a strictly lower priority when there is one.  When
    other entries are queued and none of them has a strictly lower
    priority, the queue is left holding exactly the other entries, in
    their order.  The incoming deadline is m_timestamp + timeout rounded
    to float. *)
Theorem addBlock_queued_kept_or_replaced
    s l1 e l2 a_priority timeout :
  m_queue s = l1 ++ e :: l2 ->
  key e ∉ key <$> l1 ->
  if Float.gt (priority e) a_priority
     && Float.gt (timeout_timestamp e)
          (Float.to_double (deadline (m_timestamp s) timeout))
  then addBlock s (peer_id e) (pos e) a_priority timeout = s
  else
    m_timestamp (addBlock s (peer_id e) (pos e) a_priority timeout)
    = m_timestamp s
    /\ (l1 ++ l2 = []
        \/ Exists (fun x => Float.lt (priority x) a_priority = true)
             (l1 ++ l2) ->
        placed (fun x => Float.lt (priority x) a_priority)
          {| peer_id := peer_id e;
             pos := pos e;
             priority := a_priority;
             timeout_timestamp :=
               Float.to_double (deadline (m_timestamp s) timeout) |}
          (l1 ++ l2)
          (m_queue (addBlock s (peer_id e) (pos e) a_priority timeout)))
    /\ (l1 ++ l2 <> [] ->
        Forall (fun x => Float.lt (priority x) a_priority = false)
          (l1 ++ l2) ->
        m_queue (addBlock s (peer_id e) (pos e) a_priority timeout)
        = l1 ++ l2).
Proof.
  intros Hq Hl1. unfold addBlock. rewrite Hq.
  rewrite erase_queued_at;
    [|by apply sendq_not_queued_before|by apply sendq_queued_iff].
  destruct (Float.gt (priority e) a_priority && _); [done|].
  simpl. split_and!; [done|apply add_to_queue_placed|].
  intros Hne Hno. by apply add_to_queue_lost.
Qed.

Lemma addBlock_queued_kept_or_replaced_witness :
  m_queue (Scenario.send_queue 0 [Scenario.send_entry 1 Scenario.P 5 10])
  = [] ++ Scenario.send_entry 1 Scenario.P 5 10 :: []
  /\ (key (Scenario.send_entry 1 Scenario.P 5 10) ∉ key <$> [])
  /\ m_queue
       (addBlock
          (Scenario.send_queue 0 [Scenario.send_entry 1 Scenario.P 5 10])
          1 Scenario.P (Scenario.F 5) (Scenario.F 8))
     = [Scenario.send_entry 1 Scenario.P 5 8]
  /\ addBlock
       (Scenario.send_queue 0 [Scenario.send_entry 1 Scenario.P 5 10])
       1 Scenario.P (Scenario.F 7) (Scenario.F 8)
     = Scenario.send_queue 0 [Scenario.send_entry 1 Scenario.P 7 8]
  /\ addBlock
       (Scenario.send_queue 0 [Scenario.send_entry 1 Scenario.P 5 10])
       1 Scenario.P (Scenario.F 4) (Scenario.F 8)
     = Scenario.send_queue 0 [Scenario.send_entry 1 Scenario.P 5 10]
  /\ m_queue
       (addBlock
          (Scenario.send_queue 0 [Scenario.send_entry 1 Scenario.P 5 10;
                                  Scenario.send_entry 1 Scenario.A 5 10])
          1 Scenario.A (Scenario.F 5) (Scenario.F 20))
     = [Scenario.send_entry 1 Scenario.P 5 10].
Proof.
  split_and!; [reflexivity|apply not_elem_of_nil| | | |].
  - pose proof (addBlock_queued_kept_or_replaced
                  (Scenario.send_queue 0
                     [Scenario.send_entry 1 Scenario.P 5 10])
                  [] (Scenario.send_entry 1 Scenario.P 5 10) []
                  (Scenario.F 5) (Scenario.F 8)
                  eq_refl (not_elem_of_nil _)) as (_ & Hplaced & _).
    specialize (Hplaced (or_introl eq_refl)).
    inversion Hplaced as [_ Hres|l1 x l2 Hsplit].
    + reflexivity.
    + by destruct l1.
  - reflexivity.
  - exact (addBlock_queued_kept_or_replaced
             (Scenario.send_queue 0
                [Scenario.send_entry 1 Scenario.P 5 10])
             [] (Scenario.send_entry 1 Scenario.P 5 10) []
             (Scenario.F 4) (Scenario.F 8)
             eq_refl (not_elem_of_nil _)).
  - assert (Hk : key (Scenario.send_entry 1 Scenario.A 5 10)
                 ∉ key <$> [Scenario.send_entry 1 Scenario.P 5 10]).
    { by intros Hin%list_elem_of_singleton. }
    pose proof (addBlock_queued_kept_or_replaced
                  (Scenario.send_queue 0
                     [Scenario.send_entry 1 Scenario.P 5 10;
                      Scenario.send_entry 1 Scenario.A 5 10])
                  [Scenario.send_entry 1 Scenario.P 5 10]
                  (Scenario.send_entry 1 Scenario.A 5 10) []
                  (Scenario.F 5) (Scenario.F 20)
                  eq_refl Hk) as (_ & _ & Hrest).
    apply Hrest; [done|]. by repeat constructor.
Defined.

(** C8: the drain step never hands to the transport an entry whose
    timeout_timestamp is earlier than the time of the queue: every entry
    that send delivers comes from the queue and has a deadline that has
    not elapsed; with budget for the whole queue the entries delivered
    are exactly those, and none is left. *)
Theorem send_skips_elapsed s budget :
  Forall (fun e => Float.lt (timeout_timestamp e) (m_timestamp s) = false)
    (send s budget).1
  /\ (send s budget).1 `sublist_of` m_queue s
  /\ send s (length (m_queue s))
     = (filter (fun e => Float.lt (timeout_timestamp e) (m_timestamp s)
                         = false) (m_queue s),
        {| m_queue := []; m_timestamp := m_timestamp s |}).
Proof.
  unfold send.
  destruct (drain_sent (m_timestamp s) budget (m_queue s)) as [Hf Hsub].
  rewrite (drain_all _ (length (m_queue s))) by done.
  destruct (drain _ budget _) as [sent kept]. done.
Qed.

End BlockSendQueueFacts.

(** ** Both queues *)

(** C1: after each call of any sequence of calls on a new queue, the queue
    holds at most one entry per key: no position occurs twice in a
    BlockEmergeQueue and no pair (peer_id, position) occurs twice in a
    BlockSendQueue. *)
Theorem one_entry_per_key :
  (forall cs n,
      NoDup (BlockEmergeQueue.pos
               <$> BlockEmergeQueue.run (take n cs)))
  /\ (forall t0 cs n,
         NoDup (BlockSendQueue.key
                  <$> BlockSendQueue.m_queue
                        (BlockSendQueue.run t0 (take n cs)))).
Proof.
  split.
  - intros cs n. apply BlockEmergeQueueFacts.emerge_run_invariant.
  - intros t0 cs n. apply BlockSendQueueFacts.sendq_run_invariant.
Qed.

(** ** RemoteClient *)

Module RemoteClientFacts.

Import RemoteClient.

(** C10: a new RemoteClient has no block marked as sent and knows no
    object, its peer_id is 0, both serialization versions are
    SER_FMT_VER_INVALID and m_nearest_unsent_d is 0. *)
Theorem create_knows_nothing (SER_FMT_VER_INVALID : Z) :
  m_blocks_sent (create SER_FMT_VER_INVALID) = ∅
  /\ m_known_objects (create SER_FMT_VER_INVALID) = ∅
  /\ (forall p : v3s16,
        m_blocks_sent (create SER_FMT_VER_INVALID) !! p = None)
  /\ (forall id : Z,
        m_known_objects (create SER_FMT_VER_INVALID) !! id = None)
  /\ peer_id (create SER_FMT_VER_INVALID) = 0
  /\ serialization_version (create SER_FMT_VER_INVALID)
     = SER_FMT_VER_INVALID
  /\ pending_serialization_version (create SER_FMT_VER_INVALID)
     = SER_FMT_VER_INVALID
  /\ m_nearest_unsent_d (create SER_FMT_VER_INVALID) = 0.
Proof.
  split_and!; try reflexivity; intros; apply lookup_empty.
Qed.

End RemoteClientFacts.


(** * Further properties *)

(** ** The common shape of the two addBlocks *)

Section AddBlockFacts.

Context {A K : Type} `{EqDecision K} (key : A -> K) (k : K).
Context (queued adequate lower : A -> bool) (newq : A).
Hypothesis queued_key : forall e, queued e = true <-> key e = k.
Hypothesis newq_key : key newq = k.

Implicit Types (q l r : list A) (e x : A).

Lemma key_absent_not_queued q :
  k ∉ key <$> q -> Forall (fun e => queued e = false) q.
Proof using queued_key.
  intros Hnotin. apply Forall_forall. intros e He.
  destruct (queued e) eqn:Heq; [|done].
  exfalso. apply Hnotin. apply queued_key in Heq. rewrite <- Heq.
  by apply list_elem_of_fmap_2.
Qed.

Lemma not_queued_key_absent q :
  Forall (fun e => queued e = false) q -> k ∉ key <$> q.
Proof using queued_key.
  rewrite Forall_forall. intros Hno (e & Hk & He)%list_elem_of_fmap.
  specialize (Hno e He). symmetry in Hk. apply queued_key in Hk. congruence.
Qed.

(** The first loop either meets no entry with the key, or stops at the
    first one. *)
Lemma erase_queued_cases q :
  (Forall (fun e => queued e = false) q
   /\ erase_queued queued adequate q = Some q)
  \/ exists l1 e l2,
      q = l1 ++ e :: l2
      /\ Forall (fun e => queued e = false) l1
      /\ queued e = true
      /\ erase_queued queued adequate q
         = if adequate e then None else Some (l1 ++ l2).
Proof using Type.
  destruct (first_queued queued q) as [Hno|(l1 & e & l2 & -> & Hl1 & He)].
  - left. split; [done|]. by apply erase_queued_absent.
  - right. exists l1, e, l2. split_and!; [done..|].
    by apply erase_queued_at.
Qed.

Lemma placed_length r r' :
  placed lower newq r r' -> length r' = S (length r).
Proof using Type.
  intros [->|l1 e l2 -> _ _]; [done|].
  rewrite !length_app. simpl. lia.
Qed.

Lemma add_to_queue_all_lower r :
  Forall (fun e => lower e = true) r -> add_to_queue lower newq r = newq :: r.
Proof using Type.
  intros Hr. destruct Hr as [|x r Hx _]; [done|].
  unfold add_to_queue. simpl. by rewrite Hx.
Qed.

Lemma add_to_queue_elem_of r e :
  e ∈ add_to_queue lower newq r -> e = newq \/ e ∈ r.
Proof using Type.
  destruct (add_to_queue_cases lower newq r)
    as [[->|l1 x l2 -> _ _]| ->]; [| |by right].
  - intros ->%list_elem_of_singleton. by left.
  - rewrite !elem_of_app, !elem_of_cons.
    intros [He|[->|[->|He]]]; [right|by left|right..]; auto.
Qed.

Lemma add_to_queue_others r :
  filter (fun e => key e <> k) (add_to_queue lower newq r)
  = filter (fun e => key e <> k) r.
Proof using newq_key.
  destruct (add_to_queue_cases lower newq r)
    as [[->|l1 x l2 -> _ _]| ->]; [| |done].
  - by rewrite filter_cons_False by (intros Hne; by apply Hne).
  - rewrite !filter_app. f_equal.
    by rewrite filter_cons_False by (intros Hne; by apply Hne).
Qed.

(** No entry with another key is added, removed or moved. *)
Lemma erase_and_add_others q :
  filter (fun e => key e <> k) (erase_and_add queued adequate lower newq q)
  = filter (fun e => key e <> k) q.
Proof using queued_key newq_key.
  unfold erase_and_add.
  destruct (erase_queued_cases q)
    as [[_ ->]|(l1 & e & l2 & -> & _ & He & ->)].
  - apply add_to_queue_others.
  - destruct (adequate e); [done|]. rewrite add_to_queue_others.
    rewrite !filter_app. f_equal. apply queued_key in He.
    by rewrite filter_cons_False by (intros Hne; by apply Hne).
Qed.

(** The list grows by at most one entry and shrinks by at most one. *)
Lemma erase_and_add_length q :
  (length (erase_and_add queued adequate lower newq q) <= S (length q))%nat
  /\ (length q <= S (length (erase_and_add queued adequate lower newq q)))%nat.
Proof using Type.
  assert (Hadd : forall r,
    (length r <= length (add_to_queue lower newq r) <= S (length r))%nat).
  { intros r. destruct (add_to_queue_cases lower newq r) as [Hp| ->]; [|lia].
    apply placed_length in Hp. lia. }
  unfold erase_and_add.
  destruct (erase_queued_cases q)
    as [[_ ->]|(l1 & e & l2 & -> & _ & _ & ->)].
  - specialize (Hadd q). lia.
  - destruct (adequate e); [lia|]. specialize (Hadd (l1 ++ l2)).
    rewrite !length_app in *. simpl. lia.
Qed.

Lemma erase_and_add_Forall (P : A -> Prop) q :
  Forall P q -> P newq ->
  Forall P (erase_and_add queued adequate lower newq q).
Proof using Type.
  intros Hq Hnew. unfold erase_and_add.
  assert (Hadd : forall r, Forall P r -> Forall P (add_to_queue lower newq r)).
  { intros r Hr. apply Forall_forall. intros e He.
    apply add_to_queue_elem_of in He as [->|He]; [done|].
    rewrite Forall_forall in Hr. by apply Hr. }
  destruct (erase_queued_cases q)
    as [[_ ->]|(l1 & e & l2 & -> & _ & _ & ->)].
  - by apply Hadd.
  - destruct (adequate e); [done|]. apply Hadd.
    apply Forall_app in Hq as [Hl1 [_ Hl2]%Forall_cons].
    by apply Forall_app.
Qed.

(** A request whose key is not queued: it is queued when the list is
    empty or holds a lower entry ... *)
Lemma erase_and_add_new_placed q :
  k ∉ key <$> q ->
  q = [] \/ Exists (fun e => lower e = true) q ->
  placed lower newq q (erase_and_add queued adequate lower newq q).
Proof using queued_key.
  intros Hk Hq. unfold erase_and_add.
  rewrite erase_queued_absent by by apply key_absent_not_queued.
  by apply add_to_queue_placed.
Qed.

(** ... and dropped exactly when the list is not empty and holds no lower
    entry. *)
Lemma erase_and_add_new_dropped q :
  k ∉ key <$> q ->
  q <> [] ->
  erase_and_add queued adequate lower newq q = q
  <-> Forall (fun e => lower e = false) q.
Proof using queued_key.
  intros Hk Hne. unfold erase_and_add.
  rewrite erase_queued_absent by by apply key_absent_not_queued.
  split; [|by apply add_to_queue_lost].
  intros Heq.
  destruct (first_queued lower q) as [Hno|(l1 & e & l2 & Hsplit & _ & He)];
    [done|].
  assert (Hp : placed lower newq q (add_to_queue lower newq q)).
  { apply add_to_queue_placed. right. rewrite Hsplit.
    apply Exists_app. right. by left. }
  apply placed_length in Hp. rewrite Heq in Hp. lia.
Qed.

(** Repeating a request changes nothing more. *)
Lemma erase_and_add_idempotent q :
  NoDup (key <$> q) ->
  adequate newq = false ->
  erase_and_add queued adequate lower newq
    (erase_and_add queued adequate lower newq q)
  = erase_and_add queued adequate lower newq q.
Proof using queued_key newq_key.
  intros Hnd Hnew.
  assert (Hqn : queued newq = true) by by apply queued_key.
  assert (Hadd : forall r,
    k ∉ key <$> r ->
    erase_queued queued adequate (add_to_queue lower newq r) = Some r).
  { intros r Hr.
    destruct (add_to_queue_cases lower newq r)
      as [[->|l1 x l2 -> Hl1 Hx]| ->].
    - simpl. by rewrite Hqn, Hnew.
    - rewrite erase_queued_at, Hnew; [done| |done].
      apply key_absent_not_queued. rewrite fmap_app, elem_of_app in Hr.
      intros Hin. apply Hr. by left.
    - apply erase_queued_absent. by apply key_absent_not_queued. }
  unfold erase_and_add.
  destruct (erase_queued queued adequate q) as [q'|] eqn:Hq.
  - destruct (erase_queued_keys key queued adequate k q q'
                queued_key Hnd Hq) as [_ Hk].
    by rewrite Hadd.
  - by rewrite Hq.
Qed.

(** The entry queued for the key after a request is the requested one, or
    the one queued before when the first loop found it adequate. *)
Lemma erase_and_add_key_entry q e :
  NoDup (key <$> q) ->
  e ∈ erase_and_add queued adequate lower newq q ->
  key e = k ->
  e = newq \/ (e ∈ q /\ adequate e = true).
Proof using queued_key.
  intros Hnd He Hk. unfold erase_and_add in He.
  destruct (erase_queued queued adequate q) as [q'|] eqn:Hq.
  - destruct (erase_queued_keys key queued adequate k q q'
                queued_key Hnd Hq) as [_ Hnotin].
    apply add_to_queue_elem_of in He as [->|He]; [by left|].
    exfalso. apply Hnotin. rewrite <- Hk. by apply list_elem_of_fmap_2.
  - right. split; [done|].
    destruct (erase_queued_cases q)
      as [[_ Hq']|(l1 & x & l2 & -> & Hl1 & Hx & Hq')]; [congruence|].
    rewrite Hq in Hq'. destruct (adequate x) eqn:Hax; [|done].
    apply not_queued_key_absent in Hl1.
    rewrite fmap_app, fmap_cons in Hnd.
    apply NoDup_app in Hnd as (_ & _ & [Hl2 _]%NoDup_cons).
    apply queued_key in Hx. rewrite Hx in Hl2.
    apply elem_of_app in He as [He|[->|He]%elem_of_cons]; [|done|].
    + exfalso. apply Hl1. rewrite <- Hk. by apply list_elem_of_fmap_2.
    + exfalso. apply Hl2. rewrite <- Hk. by apply list_elem_of_fmap_2.
Qed.

(** A request above every queued entry goes to the head of the list. *)
Lemma erase_and_add_all_lower q :
  Forall (fun e => lower e = true) q ->
  (forall e, lower e = true -> adequate e = false) ->
  exists q',
    erase_queued queued adequate q = Some q'
    /\ erase_and_add queued adequate lower newq q = newq :: q'.
Proof using Type.
  intros Hq Hla. unfold erase_and_add.
  destruct (erase_queued_cases q)
    as [[_ ->]|(l1 & e & l2 & -> & _ & _ & ->)].
  - exists q. split; [done|]. by apply add_to_queue_all_lower.
  - apply Forall_app in Hq as [Hl1 [He Hl2]%Forall_cons].
    rewrite (Hla e He). exists (l1 ++ l2). split; [done|].
    apply add_to_queue_all_lower. by apply Forall_app.
Qed.

End AddBlockFacts.

(** ** More on the order of floats *)

Section FloatOrderMore.

Ltac sf_cases :=
  unfold SFltb, SFleb, SFcompare in *;
  repeat match goal with
    | x : spec_float |- _ => destruct x as [[]|[]| |[] ? ?]
    end;
  simpl in *; try congruence;
  rewrite ?compare_cont_Eq in *;
  repeat match goal with
    | |- context [(?a ?= ?b)%Z] => destruct (Z.compare_spec a b); subst
    | H : context [(?a ?= ?b)%Z] |- _ =>
        destruct (Z.compare_spec a b); subst
    | |- context [(?a ?= ?b)%positive] =>
        destruct (Pos.compare_spec a b); subst
    | H : context [(?a ?= ?b)%positive] |- _ =>
        destruct (Pos.compare_spec a b); subst
    end;
  simpl in *; try congruence; try lia.

Lemma SFltb_trans (a b c : spec_float) :
  SFltb a b = true -> SFltb b c = true -> SFltb a c = true.
Proof. intros H1 H2. sf_cases. Qed.

(** Two numbers neither of which is less than the other compare equal. *)
Lemma SFltb_trichotomy (a b : spec_float) :
  SFltb a b = false -> SFltb b a = false ->
  a <> S754_nan -> b <> S754_nan ->
  SFeqb a b = true.
Proof. unfold SFeqb. intros H1 H2 Ha Hb. sf_cases. Qed.

Lemma SFltb_nan_l (a : spec_float) : SFltb S754_nan a = false.
Proof. reflexivity. Qed.

Lemma SFltb_nan_r (a : spec_float) : SFltb a S754_nan = false.
Proof. by destruct a. Qed.

Lemma SFleb_nan_l (a : spec_float) : SFleb S754_nan a = false.
Proof. reflexivity. Qed.

Lemma SFleb_nan_r (a : spec_float) : SFleb a S754_nan = false.
Proof. by destruct a. Qed.

End FloatOrderMore.

(** ** More on BlockEmergeQueue *)

Module BlockEmergeQueueMore.

Import BlockEmergeQueue.

Implicit Types (q l : list QueuedBlockEmerge) (e : QueuedBlockEmerge).

Lemma emerge_addBlock_shape q a_pos a_priority :
  addBlock q a_pos a_priority
  = erase_and_add
      (fun x => v3s16_eqb (pos x) a_pos)
      (fun x => Float.gt (priority x) a_priority)
      (fun x => Float.lt (priority x) a_priority)
      {| pos := a_pos; priority := a_priority |} q.
Proof. reflexivity. Qed.

Lemma emerge_key_iff a_pos e :
  v3s16_eqb (pos e) a_pos = true <-> pos e = a_pos.
Proof. apply v3s16_eqb_eq. Qed.

(** X1: a request for a position that is not queued is added when the
    queue is empty or holds an entry of strictly lower priority: the new
    entry stands alone, or immediately before the first entry of strictly
    lower priority (behind the entries of equal priority), and the queue
    has one entry more. *)
Theorem emerge_addBlock_new_queued q a_pos a_priority :
  a_pos ∉ pos <$> q ->
  q = [] \/ Exists (fun x => Float.lt (priority x) a_priority = true) q ->
  placed (fun x => Float.lt (priority x) a_priority)
    {| pos := a_pos; priority := a_priority |} q
    (addBlock q a_pos a_priority)
  /\ length (addBlock q a_pos a_priority) = S (length q).
Proof.
  intros Hk Hq. rewrite emerge_addBlock_shape.
  pose proof (erase_and_add_new_placed pos a_pos _
                (fun x => Float.gt (priority x) a_priority)
                (fun x => Float.lt (priority x) a_priority)
                {| pos := a_pos; priority := a_priority |}
                (emerge_key_iff a_pos) q Hk Hq) as Hp.
  split; [done|]. by eapply placed_length.
Qed.

Lemma emerge_addBlock_new_queued_witness :
  (Scenario.P ∉ pos <$> [Scenario.emerge Scenario.A 5;
                          Scenario.emerge Scenario.B 1])
  /\ Exists (fun x => Float.lt (priority x) (Scenario.F 3) = true)
       [Scenario.emerge Scenario.A 5; Scenario.emerge Scenario.B 1]
  /\ length (addBlock [Scenario.emerge Scenario.A 5;
                       Scenario.emerge Scenario.B 1]
               Scenario.P (Scenario.F 3)) = 3%nat
  /\ addBlock [Scenario.emerge Scenario.A 5; Scenario.emerge Scenario.B 1]
       Scenario.P (Scenario.F 3)
     = [Scenario.emerge Scenario.A 5; Scenario.emerge Scenario.P 3;
        Scenario.emerge Scenario.B 1].
Proof.
  assert (Hk : Scenario.P ∉ pos <$> [Scenario.emerge Scenario.A 5;
                                     Scenario.emerge Scenario.B 1]).
  { intros Hin. by repeat (apply elem_of_cons in Hin as [?|Hin]; [done|]);
      apply elem_of_nil in Hin. }
  assert (Hex : Exists (fun x => Float.lt (priority x) (Scenario.F 3) = true)
                  [Scenario.emerge Scenario.A 5; Scenario.emerge Scenario.B 1]).
  { apply Exists_cons_tl, Exists_cons_hd. reflexivity. }
  split_and!; [exact Hk|exact Hex| |reflexivity].
  exact (proj2 (emerge_addBlock_new_queued _ _ _ Hk (or_intror Hex))).
Defined.

(** X2: a request for a position that is not queued, on a queue that is
    not empty, is dropped (the queue is left as it was) exactly when no
    queued entry has a strictly lower priority. *)
Theorem emerge_addBlock_new_dropped_iff q a_pos a_priority :
  a_pos ∉ pos <$> q ->
  q <> [] ->
  addBlock q a_pos a_priority = q
  <-> Forall (fun x => Float.lt (priority x) a_priority = false) q.
Proof.
  intros Hk Hne. rewrite emerge_addBlock_shape.
  by apply (erase_and_add_new_dropped pos a_pos _ _ _ _
              (emerge_key_iff a_pos)).
Qed.

Lemma emerge_addBlock_new_dropped_iff_witness :
  (Scenario.P ∉ pos <$> [Scenario.emerge Scenario.A 5])
  /\ [Scenario.emerge Scenario.A 5] <> []
  /\ (addBlock [Scenario.emerge Scenario.A 5] Scenario.P (Scenario.F 5)
      = [Scenario.emerge Scenario.A 5]
      <-> Forall (fun x => Float.lt (priority x) (Scenario.F 5) = false)
            [Scenario.emerge Scenario.A 5]).
Proof.
  assert (Hk : Scenario.P ∉ pos <$> [Scenario.emerge Scenario.A 5]).
  { intros Hin. by repeat (apply elem_of_cons in Hin as [?|Hin]; [done|]);
      apply elem_of_nil in Hin. }
  split_and!; [exact Hk|done|].
  by apply emerge_addBlock_new_dropped_iff.
Defined.

(** X3: addBlock for a position leaves the entries of all other positions
    as they are, in the same order. *)
Theorem emerge_addBlock_other_positions q a_pos a_priority :
  filter (fun e => pos e <> a_pos) (addBlock q a_pos a_priority)
  = filter (fun e => pos e <> a_pos) q.
Proof.
  rewrite emerge_addBlock_shape.
  by apply (erase_and_add_others pos a_pos _ _ _ _ (emerge_key_iff a_pos)).
Qed.

(** X4: addBlock changes the number of entries by at most one. *)
Theorem emerge_addBlock_length q a_pos a_priority :
  (length (addBlock q a_pos a_priority) <= S (length q))%nat
  /\ (length q <= S (length (addBlock q a_pos a_priority)))%nat.
Proof. rewrite emerge_addBlock_shape. apply erase_and_add_length. Qed.

(** X5: on a queue with at most one entry per position, repeating an
    addBlock call changes nothing more. *)
Theorem emerge_addBlock_idempotent q a_pos a_priority :
  NoDup (pos <$> q) ->
  addBlock (addBlock q a_pos a_priority) a_pos a_priority
  = addBlock q a_pos a_priority.
Proof.
  intros Hnd. rewrite !emerge_addBlock_shape.
  apply (erase_and_add_idempotent pos a_pos _ _ _
           {| pos := a_pos; priority := a_priority |}
           (emerge_key_iff a_pos) eq_refl _ Hnd).
  apply SFltb_irrefl.
Qed.

Lemma emerge_addBlock_idempotent_witness :
  NoDup (pos <$> [Scenario.emerge Scenario.A 5; Scenario.emerge Scenario.B 1])
  /\ addBlock
       (addBlock [Scenario.emerge Scenario.A 5; Scenario.emerge Scenario.B 1]
          Scenario.P (Scenario.F 3))
       Scenario.P (Scenario.F 3)
     = [Scenario.emerge Scenario.A 5; Scenario.emerge Scenario.P 3;
        Scenario.emerge Scenario.B 1].
Proof.
  assert (Hnd : NoDup (pos <$> [Scenario.emerge Scenario.A 5;
                                Scenario.emerge Scenario.B 1])).
  { apply NoDup_cons. split; [|apply NoDup_singleton].
    by intros Hin%list_elem_of_singleton. }
  split; [exact Hnd|].
  rewrite (emerge_addBlock_idempotent _ Scenario.P (Scenario.F 3) Hnd).
  reflexivity.
Defined.

(** X6: on a queue with at most one entry per position, the entry found
    for a position after addBlock(pos, priority) has the requested
    priority, or is the entry queued before, whose priority is strictly
    higher than the requested one. *)
Theorem emerge_addBlock_priority_queued q a_pos a_priority e :
  NoDup (pos <$> q) ->
  e ∈ addBlock q a_pos a_priority ->
  pos e = a_pos ->
  priority e = a_priority
  \/ (e ∈ q /\ Float.gt (priority e) a_priority = true).
Proof.
  intros Hnd He Hk. rewrite emerge_addBlock_shape in He.
  destruct (erase_and_add_key_entry pos a_pos _ _ _ _
              (emerge_key_iff a_pos) q e Hnd He Hk) as [->|Hold];
    [by left|by right].
Qed.

Lemma emerge_addBlock_priority_queued_witness :
  NoDup (pos <$> [Scenario.emerge Scenario.P 5; Scenario.emerge Scenario.B 1])
  /\ Scenario.emerge Scenario.P 5
     ∈ addBlock [Scenario.emerge Scenario.P 5; Scenario.emerge Scenario.B 1]
         Scenario.P (Scenario.F 3)
  /\ pos (Scenario.emerge Scenario.P 5) = Scenario.P
  /\ (priority (Scenario.emerge Scenario.P 5) = Scenario.F 3
      \/ (Scenario.emerge Scenario.P 5
           ∈ [Scenario.emerge Scenario.P 5; Scenario.emerge Scenario.B 1]
          /\ Float.gt (priority (Scenario.emerge Scenario.P 5))
               (Scenario.F 3) = true)).
Proof.
  assert (Hnd : NoDup (pos <$> [Scenario.emerge Scenario.P 5;
                                Scenario.emerge Scenario.B 1])).
  { apply NoDup_cons. split; [|apply NoDup_singleton].
    by intros Hin%list_elem_of_singleton. }
  assert (Hin : Scenario.emerge Scenario.P 5
                ∈ addBlock [Scenario.emerge Scenario.P 5;
                            Scenario.emerge Scenario.B 1]
                    Scenario.P (Scenario.F 3)).
  { by left. }
  split_and!; [exact Hnd|exact Hin|reflexivity|].
  exact (emerge_addBlock_priority_queued _ _ _ _ Hnd Hin eq_refl).
Defined.



(** X8: an entry whose priority is NaN is always alone in the queue, and
    while it is queued every request for another position is dropped,
    whatever its priority; a request for its own position replaces it. *)
Theorem emerge_nan_priority_blocks cs e :
  e ∈ run cs ->
  priority e = S754_nan ->
  run cs = [e]
  /\ (forall a_pos a_priority,
        a_pos <> pos e -> addBlock (run cs) a_pos a_priority = run cs)
  /\ (forall a_priority,
        addBlock (run cs) (pos e) a_priority
        = [{| pos := pos e; priority := a_priority |}]).
Proof.
  intros He Hnan.
  assert (Hq : run cs = [e]).
  { destruct (BlockEmergeQueueFacts.emerge_run_invariant cs) as [_ Hs].
    unfold descending, Float.ge in Hs.
    apply list_elem_of_split in He as (l1 & l2 & Hsplit).
    rewrite Hsplit in *. clear Hsplit.
    apply StronglySorted_app in Hs as (H12 & _ & Hs2).
    apply StronglySorted_cons in Hs2 as [Hl2 _].
    destruct l1 as [|x l1].
    - destruct l2 as [|y l2]; [done|].
      apply Forall_cons in Hl2 as [Hy _].
      rewrite Hnan, SFleb_nan_r in Hy. done.
    - specialize (H12 x e). rewrite Hnan, SFleb_nan_l in H12.
      exfalso. assert (false = true); [|done].
      apply H12; by left. }
  rewrite Hq. split_and!; [done| |].
  - intros a_pos a_priority Hne.
    apply BlockEmergeQueueFacts.addBlock_not_queued_lost; [|done|].
    + by intros ->%list_elem_of_singleton.
    + constructor; [|done]. unfold Float.lt. by rewrite Hnan.
  - intros a_priority.
    rewrite (BlockEmergeQueueFacts.addBlock_queued_not_higher [] e []);
      [done|apply not_elem_of_nil|].
    unfold Float.gt. rewrite Hnan. apply SFltb_nan_r.
Qed.

Lemma emerge_nan_priority_blocks_witness :
  {| pos := Scenario.P; priority := S754_nan |}
  ∈ run [AddBlock Scenario.P S754_nan]
  /\ priority {| pos := Scenario.P; priority := S754_nan |} = S754_nan
  /\ addBlock (run [AddBlock Scenario.P S754_nan]) Scenario.A (Scenario.F 5)
     = run [AddBlock Scenario.P S754_nan].
Proof.
  assert (Hin : {| pos := Scenario.P; priority := S754_nan |}
                ∈ run [AddBlock Scenario.P S754_nan]).
  { by left. }
  split_and!; [exact Hin|reflexivity|].
  destruct (emerge_nan_priority_blocks _ _ Hin eq_refl) as (_ & Hother & _).
  by apply Hother.
Defined.

(** X16: a request for another position that is not strictly more urgent
    than the head of the queue leaves the head in place: the next pop
    returns the same entry as before. *)
Theorem emerge_addBlock_head_kept h q a_pos a_priority :
  pos h <> a_pos ->
  Float.lt (priority h) a_priority = false ->
  (pop (addBlock (h :: q) a_pos a_priority)).1 = (pop (h :: q)).1.
Proof.
  intros Hne Hlt. unfold addBlock. simpl erase_queued.
  destruct (v3s16_eqb (pos h) a_pos) eqn:Hk.
  { by apply emerge_key_iff in Hk. }
  destruct (erase_queued _ _ q) as [q'|]; simpl; [|done].
  unfold add_to_queue. simpl. by rewrite Hlt.
Qed.

Lemma emerge_addBlock_head_kept_witness :
  pos (Scenario.emerge Scenario.A 5) <> Scenario.P
  /\ Float.lt (priority (Scenario.emerge Scenario.A 5)) (Scenario.F 5) = false
  /\ (pop (addBlock [Scenario.emerge Scenario.A 5;
                     Scenario.emerge Scenario.B 1]
             Scenario.P (Scenario.F 5))).1
     = Some (Scenario.emerge Scenario.A 5).
Proof.
  split_and!; [done|reflexivity|].
  by apply (emerge_addBlock_head_kept (Scenario.emerge Scenario.A 5)
              [Scenario.emerge Scenario.B 1] Scenario.P (Scenario.F 5)).
Defined.

End BlockEmergeQueueMore.

(** ** More on BlockSendQueue *)

Module BlockSendQueueMore.

Import BlockSendQueue.

Implicit Types (q l : list QueuedBlockSend) (e : QueuedBlockSend) (s : t).

(** The entry that [addBlock] builds. *)
Lemma sendq_m_queue_addBlock s a_peer_id a_pos a_priority timeout :
  m_queue (addBlock s a_peer_id a_pos a_priority timeout)
  = erase_and_add
      (fun x => (peer_id x =? a_peer_id) && v3s16_eqb (pos x) a_pos)
      (fun x => Float.gt (priority x) a_priority
                && Float.gt (timeout_timestamp x)
                     (Float.to_double (deadline (m_timestamp s) timeout)))
      (fun x => Float.lt (priority x) a_priority)
      {| peer_id := a_peer_id;
         pos := a_pos;
         priority := a_priority;
         timeout_timestamp :=
           Float.to_double (deadline (m_timestamp s) timeout) |}
      (m_queue s).
Proof.
  unfold addBlock, erase_and_add. by destruct (erase_queued _ _ (m_queue s)).
Qed.

Lemma sendq_m_timestamp_addBlock s a_peer_id a_pos a_priority timeout :
  m_timestamp (addBlock s a_peer_id a_pos a_priority timeout) = m_timestamp s.
Proof. unfold addBlock. by destruct (erase_queued _ _ (m_queue s)). Qed.

Lemma sendq_eq s1 s2 :
  m_queue s1 = m_queue s2 -> m_timestamp s1 = m_timestamp s2 -> s1 = s2.
Proof. destruct s1, s2; simpl. by intros -> ->. Qed.

Lemma sendq_key_iff a_peer_id a_pos e :
  (peer_id e =? a_peer_id) && v3s16_eqb (pos e) a_pos = true
  <-> key e = (a_peer_id, a_pos).
Proof. apply BlockSendQueueFacts.sendq_queued_iff. Qed.

Lemma sendq_lower_not_adequate a_priority ts e :
  Float.lt (priority e) a_priority = true ->
  Float.gt (priority e) a_priority && Float.gt (timeout_timestamp e) ts
  = false.
Proof.
  unfold Float.lt, Float.gt. intros Hlt.
  by rewrite (SFltb_asym _ _ Hlt).
Qed.

(** X9: addBlock for a key (peer_id, position) leaves the entries of all
    other keys as they are, in the same order, and does not change
    m_timestamp. *)
Theorem sendq_addBlock_other_keys s a_peer_id a_pos a_priority timeout :
  filter (fun e => key e <> (a_peer_id, a_pos))
    (m_queue (addBlock s a_peer_id a_pos a_priority timeout))
  = filter (fun e => key e <> (a_peer_id, a_pos)) (m_queue s)
  /\ m_timestamp (addBlock s a_peer_id a_pos a_priority timeout)
     = m_timestamp s.
Proof.
  split; [|apply sendq_m_timestamp_addBlock].
  rewrite sendq_m_queue_addBlock.
  by apply (erase_and_add_others key (a_peer_id, a_pos) _ _ _ _
              (sendq_key_iff a_peer_id a_pos)).
Qed.

(** X10: on a send queue with at most one entry per key, repeating an
    addBlock call (with no step in between) changes nothing more. *)
Theorem sendq_addBlock_idempotent s a_peer_id a_pos a_priority timeout :
  NoDup (key <$> m_queue s) ->
  addBlock (addBlock s a_peer_id a_pos a_priority timeout)
    a_peer_id a_pos a_priority timeout
  = addBlock s a_peer_id a_pos a_priority timeout.
Proof.
  intros Hnd. apply sendq_eq; [|by rewrite !sendq_m_timestamp_addBlock].
  rewrite (sendq_m_queue_addBlock (addBlock s _ _ _ _)).
  rewrite sendq_m_timestamp_addBlock, sendq_m_queue_addBlock.
  apply (erase_and_add_idempotent key (a_peer_id, a_pos) _ _ _
           {| peer_id := a_peer_id;
              pos := a_pos;
              priority := a_priority;
              timeout_timestamp :=
                Float.to_double (deadline (m_timestamp s) timeout) |}
           (sendq_key_iff a_peer_id a_pos) eq_refl _ Hnd).
  simpl. unfold Float.gt. by rewrite SFltb_irrefl.
Qed.

Lemma sendq_addBlock_idempotent_witness :
  NoDup (key <$> m_queue
           (Scenario.send_queue 0 [Scenario.send_entry 1 Scenario.A 5 10;
                                   Scenario.send_entry 1 Scenario.B 1 10]))
  /\ addBlock
       (addBlock
          (Scenario.send_queue 0 [Scenario.send_entry 1 Scenario.A 5 10;
                                  Scenario.send_entry 1 Scenario.B 1 10])
          1 Scenario.P (Scenario.F 3) (Scenario.F 8))
       1 Scenario.P (Scenario.F 3) (Scenario.F 8)
     = Scenario.send_queue 0 [Scenario.send_entry 1 Scenario.A 5 10;
                              Scenario.send_entry 1 Scenario.P 3 8;
                              Scenario.send_entry 1 Scenario.B 1 10].
Proof.
  assert (Hnd : NoDup (key <$> m_queue
            (Scenario.send_queue 0 [Scenario.send_entry 1 Scenario.A 5 10;
                                    Scenario.send_entry 1 Scenario.B 1 10]))).
  { apply NoDup_cons. split; [|apply NoDup_singleton].
    by intros Hin%list_elem_of_singleton. }
  split; [exact Hnd|].
  rewrite (sendq_addBlock_idempotent _ 1 Scenario.P (Scenario.F 3)
             (Scenario.F 8) Hnd).
  reflexivity.
Defined.

(** X11: a request for a key that is not queued is added when the send
    queue is empty or holds an entry of strictly lower priority: the new
    entry, with deadline m_timestamp + timeout rounded to float, stands
    alone or immediately before the first entry of strictly lower
    priority, and the queue has one entry more. *)
Theorem sendq_addBlock_new_queued s a_peer_id a_pos a_priority timeout :
  (a_peer_id, a_pos) ∉ key <$> m_queue s ->
  m_queue s = []
  \/ Exists (fun x => Float.lt (priority x) a_priority = true) (m_queue s) ->
  placed (fun x => Float.lt (priority x) a_priority)
    {| peer_id := a_peer_id;
       pos := a_pos;
       priority := a_priority;
       timeout_timestamp :=
         Float.to_double (deadline (m_timestamp s) timeout) |}
    (m_queue s)
    (m_queue (addBlock s a_peer_id a_pos a_priority timeout))
  /\ length (m_queue (addBlock s a_peer_id a_pos a_priority timeout))
     = S (length (m_queue s)).
Proof.
  intros Hk Hq. rewrite sendq_m_queue_addBlock.
  pose proof (erase_and_add_new_placed key (a_peer_id, a_pos) _
                (fun x => Float.gt (priority x) a_priority
                          && Float.gt (timeout_timestamp x)
                               (Float.to_double
                                  (deadline (m_timestamp s) timeout)))
                (fun x => Float.lt (priority x) a_priority)
                {| peer_id := a_peer_id;
                   pos := a_pos;
                   priority := a_priority;
                   timeout_timestamp :=
                     Float.to_double (deadline (m_timestamp s) timeout) |}
                (sendq_key_iff a_peer_id a_pos) (m_queue s) Hk Hq) as Hp.
  split; [done|]. by eapply placed_length.
Qed.

Lemma sendq_addBlock_new_queued_witness :
  ((1, Scenario.P)
   ∉ key <$> m_queue
       (Scenario.send_queue 0 [Scenario.send_entry 1 Scenario.A 5 10;
                               Scenario.send_entry 1 Scenario.B 1 10]))
  /\ Exists (fun x => Float.lt (priority x) (Scenario.F 3) = true)
       (m_queue
          (Scenario.send_queue 0 [Scenario.send_entry 1 Scenario.A 5 10;
                                  Scenario.send_entry 1 Scenario.B 1 10]))
  /\ length
       (m_queue
          (addBlock
             (Scenario.send_queue 0 [Scenario.send_entry 1 Scenario.A 5 10;
                                     Scenario.send_entry 1 Scenario.B 1 10])
             1 Scenario.P (Scenario.F 3) (Scenario.F 8))) = 3%nat
  /\ addBlock
       (Scenario.send_queue 0 [Scenario.send_entry 1 Scenario.A 5 10;
                               Scenario.send_entry 1 Scenario.B 1 10])
       1 Scenario.P (Scenario.F 3) (Scenario.F 8)
     = Scenario.send_queue 0 [Scenario.send_entry 1 Scenario.A 5 10;
                              Scenario.send_entry 1 Scenario.P 3 8;
                              Scenario.send_entry 1 Scenario.B 1 10].
Proof.
  assert (Hk : (1, Scenario.P)
    ∉ key <$> m_queue
        (Scenario.send_queue 0 [Scenario.send_entry 1 Scenario.A 5 10;
                                Scenario.send_entry 1 Scenario.B 1 10])).
  { intros Hin. by repeat (apply elem_of_cons in Hin as [?|Hin]; [done|]);
      apply elem_of_nil in Hin. }
  assert (Hex : Exists (fun x => Float.lt (priority x) (Scenario.F 3) = true)
    (m_queue
       (Scenario.send_queue 0 [Scenario.send_entry 1 Scenario.A 5 10;
                               Scenario.send_entry 1 Scenario.B 1 10]))).
  { apply Exists_cons_tl, Exists_cons_hd. reflexivity. }
  split_and!; [exact Hk|exact Hex| |reflexivity].
  exact (proj2 (sendq_addBlock_new_queued _ _ _ _ (Scenario.F 8)
                  Hk (or_intror Hex))).
Defined.

(** X12: a request for a key that is not queued, on a send queue that is
    not empty, is dropped (the object is left as it was) exactly when no
    queued entry has a strictly lower priority. *)
Theorem sendq_addBlock_new_dropped_iff s a_peer_id a_pos a_priority timeout :
  (a_peer_id, a_pos) ∉ key <$> m_queue s ->
  m_queue s <> [] ->
  addBlock s a_peer_id a_pos a_priority timeout = s
  <-> Forall (fun x => Float.lt (priority x) a_priority = false) (m_queue s).
Proof.
  intros Hk Hne.
  rewrite <- (erase_and_add_new_dropped key (a_peer_id, a_pos)
                (fun x => (peer_id x =? a_peer_id) && v3s16_eqb (pos x) a_pos)
                (fun x => Float.gt (priority x) a_priority
                          && Float.gt (timeout_timestamp x)
                               (Float.to_double
                                  (deadline (m_timestamp s) timeout)))
                (fun x => Float.lt (priority x) a_priority)
                {| peer_id := a_peer_id;
                   pos := a_pos;
                   priority := a_priority;
                   timeout_timestamp :=
                     Float.to_double (deadline (m_timestamp s) timeout) |}
                (sendq_key_iff a_peer_id a_pos) (m_queue s) Hk Hne).
  rewrite <- sendq_m_queue_addBlock. split.
  - by intros ->.
  - intros Hq. apply sendq_eq; [done|apply sendq_m_timestamp_addBlock].
Qed.

Lemma sendq_addBlock_new_dropped_iff_witness :
  ((1, Scenario.P)
   ∉ key <$> m_queue
       (Scenario.send_queue 0 [Scenario.send_entry 1 Scenario.A 5 10]))
  /\ m_queue (Scenario.send_queue 0 [Scenario.send_entry 1 Scenario.A 5 10])
     <> []
  /\ (addBlock
        (Scenario.send_queue 0 [Scenario.send_entry 1 Scenario.A 5 10])
        1 Scenario.P (Scenario.F 5) (Scenario.F 8)
      = Scenario.send_queue 0 [Scenario.send_entry 1 Scenario.A 5 10]
      <-> Forall (fun x => Float.lt (priority x) (Scenario.F 5) = false)
            (m_queue
               (Scenario.send_queue 0
                  [Scenario.send_entry 1 Scenario.A 5 10]))).
Proof.
  assert (Hk : (1, Scenario.P)
    ∉ key <$> m_queue
        (Scenario.send_queue 0 [Scenario.send_entry 1 Scenario.A 5 10])).
  { intros Hin. by repeat (apply elem_of_cons in Hin as [?|Hin]; [done|]);
      apply elem_of_nil in Hin. }
  split_and!; [exact Hk|done|].
  by apply sendq_addBlock_new_dropped_iff.
Defined.

(** X13: on a send queue with at most one entry per key, the entry found
    for a key after addBlock is the requested one (requested priority,
    deadline m_timestamp + timeout rounded to float), or is the entry
    queued before, whose priority and deadline are both strictly greater
    than the requested ones. *)
Theorem sendq_addBlock_entry_queued s a_peer_id a_pos a_priority timeout e :
  NoDup (key <$> m_queue s) ->
  e ∈ m_queue (addBlock s a_peer_id a_pos a_priority timeout) ->
  key e = (a_peer_id, a_pos) ->
  (priority e = a_priority
   /\ timeout_timestamp e
      = Float.to_double (deadline (m_timestamp s) timeout))
  \/ (e ∈ m_queue s
      /\ Float.gt (priority e) a_priority = true
      /\ Float.gt (timeout_timestamp e)
           (Float.to_double (deadline (m_timestamp s) timeout)) = true).
Proof.
  intros Hnd He Hk. rewrite sendq_m_queue_addBlock in He.
  destruct (erase_and_add_key_entry key (a_peer_id, a_pos) _ _ _ _
              (sendq_key_iff a_peer_id a_pos) (m_queue s) e Hnd He Hk)
    as [->|[Hin Had]]; [by left|right].
  by apply andb_true_iff in Had as [? ?].
Qed.

Lemma sendq_addBlock_entry_queued_witness :
  NoDup (key <$> m_queue
           (Scenario.send_queue 0 [Scenario.send_entry 1 Scenario.P 5 10]))
  /\ Scenario.send_entry 1 Scenario.P 5 8
     ∈ m_queue
         (addBlock
            (Scenario.send_queue 0 [Scenario.send_entry 1 Scenario.P 5 10])
            1 Scenario.P (Scenario.F 5) (Scenario.F 8))
  /\ key (Scenario.send_entry 1 Scenario.P 5 8) = (1, Scenario.P)
  /\ ((priority (Scenario.send_entry 1 Scenario.P 5 8) = Scenario.F 5
       /\ timeout_timestamp (Scenario.send_entry 1 Scenario.P 5 8)
          = Float.to_double
              (deadline
                 (m_timestamp
                    (Scenario.send_queue 0
                       [Scenario.send_entry 1 Scenario.P 5 10]))
                 (Scenario.F 8)))
      \/ (Scenario.send_entry 1 Scenario.P 5 8
          ∈ m_queue
              (Scenario.send_queue 0
                 [Scenario.send_entry 1 Scenario.P 5 10])
          /\ Float.gt (priority (Scenario.send_entry 1 Scenario.P 5 8))
               (Scenario.F 5) = true
          /\ Float.gt
               (timeout_timestamp (Scenario.send_entry 1 Scenario.P 5 8))
               (Float.to_double
                  (deadline
                     (m_timestamp
                        (Scenario.send_queue 0
                           [Scenario.send_entry 1 Scenario.P 5 10]))
                     (Scenario.F 8))) = true)).
Proof.
  assert (Hnd : NoDup (key <$> m_queue
            (Scenario.send_queue 0 [Scenario.send_entry 1 Scenario.P 5 10])))
    by apply NoDup_singleton.
  assert (Hin : Scenario.send_entry 1 Scenario.P 5 8
    ∈ m_queue
        (addBlock
           (Scenario.send_queue 0 [Scenario.send_entry 1 Scenario.P 5 10])
           1 Scenario.P (Scenario.F 5) (Scenario.F 8))) by by left.
  split_and!; [exact Hnd|exact Hin|reflexivity|].
  exact (sendq_addBlock_entry_queued _ _ _ _ _ _ Hnd Hin eq_refl).
Defined.

(** X14: a request whose priority is strictly higher than that of every
    queued entry is put at the head of the send queue, where the drain
    step starts.  What follows it is the queue as the first loop of
    addBlock leaves it, that is, without the entry queued for the key: on
    a queue with at most one entry per key, exactly the entries of the
    other keys, unchanged and in order. *)
Theorem sendq_addBlock_most_urgent_first
    s a_peer_id a_pos a_priority timeout :
  Forall (fun x => Float.lt (priority x) a_priority = true) (m_queue s) ->
  head (m_queue (addBlock s a_peer_id a_pos a_priority timeout))
  = Some {| peer_id := a_peer_id;
            pos := a_pos;
            priority := a_priority;
            timeout_timestamp :=
              Float.to_double (deadline (m_timestamp s) timeout) |}
  /\ filter (fun e => key e <> (a_peer_id, a_pos))
       (tail (m_queue (addBlock s a_peer_id a_pos a_priority timeout)))
     = filter (fun e => key e <> (a_peer_id, a_pos)) (m_queue s)
  /\ Some (tail (m_queue (addBlock s a_peer_id a_pos a_priority timeout)))
     = erase_queued
         (fun x => (peer_id x =? a_peer_id) && v3s16_eqb (pos x) a_pos)
         (fun x => Float.gt (priority x) a_priority
                   && Float.gt (timeout_timestamp x)
                        (Float.to_double (deadline (m_timestamp s) timeout)))
         (m_queue s)
  /\ (NoDup (key <$> m_queue s) ->
      tail (m_queue (addBlock s a_peer_id a_pos a_priority timeout))
      = filter (fun e => key e <> (a_peer_id, a_pos)) (m_queue s)).
Proof.
  intros Hq.
  pose proof (erase_and_add_others key (a_peer_id, a_pos)
                (fun x => (peer_id x =? a_peer_id) && v3s16_eqb (pos x) a_pos)
                (fun x => Float.gt (priority x) a_priority
                          && Float.gt (timeout_timestamp x)
                               (Float.to_double
                                  (deadline (m_timestamp s) timeout)))
                (fun x => Float.lt (priority x) a_priority)
                {| peer_id := a_peer_id;
                   pos := a_pos;
                   priority := a_priority;
                   timeout_timestamp :=
                     Float.to_double (deadline (m_timestamp s) timeout) |}
                (sendq_key_iff a_peer_id a_pos) eq_refl (m_queue s))
    as Hothers.
  rewrite sendq_m_queue_addBlock.
  destruct (erase_and_add_all_lower
              (fun x => (peer_id x =? a_peer_id) && v3s16_eqb (pos x) a_pos)
              (fun x => Float.gt (priority x) a_priority
                        && Float.gt (timeout_timestamp x)
                             (Float.to_double
                                (deadline (m_timestamp s) timeout)))
              (fun x => Float.lt (priority x) a_priority)
              {| peer_id := a_peer_id;
                 pos := a_pos;
                 priority := a_priority;
                 timeout_timestamp :=
                   Float.to_double (deadline (m_timestamp s) timeout) |}
              (m_queue s) Hq)
    as (q' & Hq' & Hres).
  { intros x Hx. by apply sendq_lower_not_adequate. }
  rewrite Hres in *. simpl.
  rewrite filter_cons_False in Hothers by (intros Hne; by apply Hne).
  split_and!; [done|done|done|].
  intros Hnd.
  destruct (erase_queued_keys key _ _ (a_peer_id, a_pos) (m_queue s) q'
              (sendq_key_iff a_peer_id a_pos) Hnd Hq') as [_ Hnotin].
  rewrite <- Hothers. clear -Hnotin.
  induction q' as [|x q' IH]; [done|].
  rewrite fmap_cons, not_elem_of_cons in Hnotin. destruct Hnotin as [Hx Hq'].
  rewrite filter_cons_True by (intros Heq; by apply Hx).
  f_equal. by apply IH.
Qed.

Lemma sendq_addBlock_most_urgent_first_witness :
  Forall (fun x => Float.lt (priority x) (Scenario.F 7) = true)
    (m_queue
       (Scenario.send_queue 0 [Scenario.send_entry 1 Scenario.A 5 10;
                               Scenario.send_entry 1 Scenario.B 1 10]))
  /\ head
       (m_queue
          (addBlock
             (Scenario.send_queue 0 [Scenario.send_entry 1 Scenario.A 5 10;
                                     Scenario.send_entry 1 Scenario.B 1 10])
             1 Scenario.B (Scenario.F 7) (Scenario.F 8)))
     = Some (Scenario.send_entry 1 Scenario.B 7 8)
  /\ m_queue
       (addBlock
          (Scenario.send_queue 0 [Scenario.send_entry 1 Scenario.A 5 10;
                                  Scenario.send_entry 1 Scenario.B 1 10])
          1 Scenario.B (Scenario.F 7) (Scenario.F 8))
     = [Scenario.send_entry 1 Scenario.B 7 8;
        Scenario.send_entry 1 Scenario.A 5 10].
Proof.
  assert (Hq : Forall (fun x => Float.lt (priority x) (Scenario.F 7) = true)
    (m_queue
       (Scenario.send_queue 0 [Scenario.send_entry 1 Scenario.A 5 10;
                               Scenario.send_entry 1 Scenario.B 1 10]))).
  { by repeat constructor. }
  split_and!; [exact Hq| |reflexivity].
  exact (proj1 (sendq_addBlock_most_urgent_first _ 1 Scenario.B _
                  (Scenario.F 8) Hq)).
Defined.

(** X15: the constructor leaves m_timestamp uninitialised.  If it starts
    as NaN it is NaN after every sequence of addBlock and step calls, every
    queued entry has a NaN deadline, and the first loop of addBlock never
    returns early: no queued entry is ever found adequate. *)
Theorem sendq_nan_timestamp cs :
  m_timestamp (run S754_nan cs) = S754_nan
  /\ Forall (fun e => timeout_timestamp e = S754_nan)
       (m_queue (run S754_nan cs))
  /\ (forall a_peer_id a_pos a_priority timeout,
        erase_queued
          (fun x => (peer_id x =? a_peer_id) && v3s16_eqb (pos x) a_pos)
          (fun x => Float.gt (priority x) a_priority
                    && Float.gt (timeout_timestamp x)
                         (Float.to_double
                            (deadline (m_timestamp (run S754_nan cs))
                               timeout)))
          (m_queue (run S754_nan cs))
        <> None).
Proof.
  assert (Hinv : forall s,
    m_timestamp s = S754_nan ->
    Forall (fun e => timeout_timestamp e = S754_nan) (m_queue s) ->
    m_timestamp (foldl exec s cs) = S754_nan
    /\ Forall (fun e => timeout_timestamp e = S754_nan)
         (m_queue (foldl exec s cs))).
  { induction cs as [|c cs IH]; intros s Hts Hq; simpl; [done|].
    apply IH; destruct c as [a_peer_id a_pos a_priority timeout|dtime]; simpl.
    - by rewrite sendq_m_timestamp_addBlock.
    - by rewrite Hts.
    - rewrite sendq_m_queue_addBlock.
      apply erase_and_add_Forall; [done|]. simpl. by rewrite Hts.
    - done. }
  destruct (Hinv (create S754_nan) eq_refl (Forall_nil_2 _)) as [Hts Hq].
  split_and!; [exact Hts|exact Hq|].
  intros a_peer_id a_pos a_priority timeout. fold (run S754_nan cs) in Hts.
  rewrite Hts.
  destruct (erase_queued_cases
              (fun x => (peer_id x =? a_peer_id) && v3s16_eqb (pos x) a_pos)
              (fun x => Float.gt (priority x) a_priority
                        && Float.gt (timeout_timestamp x)
                             (Float.to_double (deadline S754_nan timeout)))
              (m_queue (run S754_nan cs)))
    as [[_ ->]|(l1 & e & l2 & _ & _ & _ & ->)]; [done|].
  replace (Float.gt (timeout_timestamp e)
             (Float.to_double (deadline S754_nan timeout))) with false
    by reflexivity.
  by rewrite andb_false_r.
Qed.

End BlockSendQueueMore.

(** ** PrioritySortedBlockTransfer *)

Module PrioritySortedBlockTransferFacts.

Import PrioritySortedBlockTransfer.

(** X17: operator< of PrioritySortedBlockTransfer is a strict order on the
    priorities: it is irreflexive, asymmetric and transitive; two
    transfers with number priorities neither of which is less than the
    other have equal priorities; a transfer with a NaN priority is neither
    less nor greater than any other. *)
Theorem transfer_lt_strict_order :
  (forall a, lt a a = false)
  /\ (forall a b, lt a b = true -> lt b a = false)
  /\ (forall a b c, lt a b = true -> lt b c = true -> lt a c = true)
  /\ (forall a b,
        lt a b = false -> lt b a = false ->
        priority a <> S754_nan -> priority b <> S754_nan ->
        SFeqb (priority a) (priority b) = true)
  /\ (forall a b,
        priority a = S754_nan -> lt a b = false /\ lt b a = false).
Proof.
  unfold lt, Float.lt. split_and!.
  - intros a. apply SFltb_irrefl.
  - intros a b. apply SFltb_asym.
  - intros a b c. apply SFltb_trans.
  - intros a b. apply SFltb_trichotomy.
  - intros a b ->. split; [apply SFltb_nan_l|apply SFltb_nan_r].
Qed.

End PrioritySortedBlockTransferFacts.

(** ** ServerError *)

Module ServerErrorFacts.

Import ServerError.

Lemma c_str_no_nul (s : string) :
  c_str s = s
  <-> Forall (fun c => c <> Ascii.zero) (String.list_ascii_of_string s).
Proof.
  induction s as [|c s IH]; simpl.
  { split; [constructor|done]. }
  destruct (Ascii.eqb_spec c Ascii.zero) as [->|Hc].
  - split; [done|]. by intros [? _]%Forall_cons.
  - rewrite Forall_cons. split.
    + intros [= Hs]. split; [done|]. by apply IH.
    + intros [_ Hs]. f_equal. by apply IH.
Qed.

(** X18: what() of ServerError(s) is "ServerError: " followed by s read as
    a C string, that is, by the characters of s before its first NUL; it
    is "ServerError: " followed by the whole of s exactly when s holds no
    NUL character. *)
Theorem what_is_prefixed_message (s : string) :
  what (create s) = "ServerError: " +:+ c_str s
  /\ (what (create s) = "ServerError: " +:+ s
      <-> Forall (fun c => c <> Ascii.zero) (String.list_ascii_of_string s)).
Proof.
  assert (Hwhat : what (create s) = "ServerError: " +:+ c_str s)
    by reflexivity.
  split; [done|]. rewrite Hwhat, <- c_str_no_nul. split.
  - intros Heq. by simplify_eq/=.
  - by intros ->.
Qed.

End ServerErrorFacts.
